(** * RSA and ElGamal over shared number-theoretic primitives

    A shallow embedding of [rsa.py] and [elgamal.py].

    Python integers are unbounded, so they are [Z]; [%] and [//] are the
    floored operations [Z.modulo] and [Z.div], [&] and [>>] are [Z.land]
    and [Z.shiftr].  A Python call either returns, raises, or keeps
    running: the three constructors of [outcome].  Loops whose trip count
    is not bounded by the source text carry a [fuel] argument, and
    [OutOfFuel] is what they answer when it is used up.  The one
    recursive function, [extended_gcd], takes a frame of the interpreter
    per nested call: it carries the number [depth] of frames that are
    left, and raises [RecursionError] when there is none.
    [random.randint] reads an entropy source [src : nat -> Z] at a cursor
    that every draw advances. *)

From Stdlib Require Import ZArith List Lia Znumtheory Bool String Ascii.
From Stdlib Require Import Zmod.ZmodInv.
From Stdlib Require Import DecimalString.
Import ListNotations.
Local Open Scope Z_scope.

(** ** Outcomes of a call *)

Inductive exn : Type :=
| ValueError
| ZeroDivisionError
| TypeError
| RecursionError
| OverflowError.

Inductive outcome (A : Type) : Type :=
| Ret (a : A)
| Raise (e : exn)
| OutOfFuel.

Arguments Ret {A} a.
Arguments Raise {A} e.
Arguments OutOfFuel {A}.

Definition bind {A B : Type} (c : outcome A) (k : A -> outcome B) : outcome B :=
  match c with
  | Ret a => k a
  | Raise e => Raise e
  | OutOfFuel => OutOfFuel
  end.

Notation "x <- c ;; k" := (bind c (fun x => k))
  (at level 61, c at next level, right associativity).

(** [a % b]: raises on a zero divisor, otherwise floored like [Z.modulo]. *)
Definition py_mod (a b : Z) : outcome Z :=
  if b =? 0 then Raise ZeroDivisionError else Ret (a mod b).

(** ** Shared primitives (textually the same in both source files) *)

(** The [while e:] loop of [quick_pow]; one unit of fuel per iteration. *)
Fixpoint quick_pow_loop (fuel : nat) (ans m e n : Z) {struct fuel} : outcome Z :=
  if e =? 0 then Ret ans
  else
    match fuel with
    | O => OutOfFuel
    | S fuel' =>
        ans' <- (if Z.land e 1 =? 0 then Ret ans else py_mod (ans * m) n) ;;
        m' <- py_mod (m * m) n ;;
        quick_pow_loop fuel' ans' m' (Z.shiftr e 1) n
    end.

(** Iterations the loop needs on a non-negative exponent: its bit length. *)
Definition bit_length (e : Z) : nat :=
  if e <=? 0 then O else S (Z.to_nat (Z.log2 e)).

(** [quick_pow(m, e, n)].  The loop is given one iteration more than
    [bit_length e]; [bit_length e] is all it takes when [0 <= e].  On a
    negative exponent the first iteration raises when [n = 0], and
    otherwise the loop of the source never ends ([-1 >> 1 == -1]): the
    answer is [OutOfFuel] here as with any other amount of fuel. *)
Definition quick_pow (m e n : Z) : outcome Z :=
  quick_pow_loop (S (bit_length e)) 1 m e n.

(** [quick_pow] on a base that may be [None]: the first multiplication
    raises [TypeError]. *)
Definition quick_pow_obj (m : option Z) (e n : Z) : outcome Z :=
  match m with
  | Some m => quick_pow m e n
  | None => if e =? 0 then Ret 1 else Raise TypeError
  end.

(** [extended_gcd(a, b)], recursive on the Euclidean remainder sequence.
    Every call, the outermost one included, takes one of the [depth]
    frames the interpreter has left; with none left the call raises
    [RecursionError].  CPython allows 1000 frames in all unless told
    otherwise, so [depth] is below 1000 there. *)
Fixpoint extended_gcd (depth : nat) (a b : Z) {struct depth} : outcome (Z * Z * Z) :=
  match depth with
  | O => Raise RecursionError
  | S depth' =>
      if b =? 0 then Ret (a, 1, 0)
      else
        t <- extended_gcd depth' b (a mod b) ;;
        let '(gcd, x1, y1) := t in
        let x := y1 in
        let y := x1 - (a / b) * y1 in
        Ret (gcd, x, y)
  end.

(** [mod_inverse(e, phi_n)]; [depth] frames are left for its call of
    [extended_gcd]. *)
Definition mod_inverse (depth : nat) (e phi_n : Z) : outcome Z :=
  t <- extended_gcd depth e phi_n ;;
  let '(gcd, x, _) := t in
  if negb (gcd =? 1) then Raise ValueError
  else py_mod x phi_n.

(** A number of frames that is enough for [extended_gcd] whatever its
    first argument: two for every bit of the second one, and three. *)
Definition enough_frames (b : Z) : nat :=
  (2 * Z.to_nat (Z.log2 (Z.abs b)) + 3)%nat.

(** Consecutive Fibonacci numbers, the inputs on which Euclid's
    algorithm is slowest. *)
Fixpoint fib_pair (n : nat) : Z * Z :=
  match n with
  | O => (0, 1)
  | S n' => let '(a, b) := fib_pair n' in (b, a + b)
  end.

Definition fib (n : nat) : Z := fst (fib_pair n).

(** ** Randomised code *)

Section Randomised.

(** The entropy source: [src c] is the raw value behind the draw made
    at cursor [c]. *)
Variable src : nat -> Z.

Definition rand (A : Type) : Type := nat -> outcome (A * nat).

Definition rret {A : Type} (a : A) : rand A := fun c => Ret (a, c).

Definition rbind {A B : Type} (r : rand A) (k : A -> rand B) : rand B :=
  fun c => match r c with
           | Ret (a, c') => k a c'
           | Raise e => Raise e
           | OutOfFuel => OutOfFuel
           end.

Definition lift {A : Type} (o : outcome A) : rand A :=
  fun c => match o with
           | Ret a => Ret (a, c)
           | Raise e => Raise e
           | OutOfFuel => OutOfFuel
           end.

(** [random.randint(lo, hi)]: an integer of [lo..hi], both ends
    included; an empty range raises. *)
Definition randint (lo hi : Z) : rand Z :=
  fun c => if hi <? lo then Raise ValueError
           else Ret (lo + src c mod (hi - lo + 1), S c).

(** Line 1 of [_miller_rabin_test]: [a = 2 + random.randint(1, n - 4)]. *)
Definition pick_witness (n : Z) : rand Z :=
  rbind (randint 1 (n - 4)) (fun r => rret (2 + r)).

(** The [while d != n - 1] loop of [_miller_rabin_test]. *)
Fixpoint mr_loop (fuel : nat) (x d n : Z) {struct fuel} : outcome bool :=
  if d =? n - 1 then Ret false
  else
    match fuel with
    | O => OutOfFuel
    | S fuel' =>
        x' <- py_mod (x * x) n ;;
        let d' := d * 2 in
        if x' =? 1 then Ret false
        else if x' =? n - 1 then Ret true
        else mr_loop fuel' x' d' n
    end.

Definition _miller_rabin_test (fuel : nat) (d n : Z) : rand bool :=
  rbind (pick_witness n) (fun a =>
  rbind (lift (quick_pow a d n)) (fun x =>
  if (x =? 1) || (x =? n - 1) then rret true
  else lift (mr_loop fuel x d n))).

(** The [while d % 2 == 0: d //= 2] loop of [is_prime]. *)
Fixpoint odd_part (fuel : nat) (d : Z) {struct fuel} : outcome Z :=
  if negb (d mod 2 =? 0) then Ret d
  else
    match fuel with
    | O => OutOfFuel
    | S fuel' => odd_part fuel' (d / 2)
    end.

(** The [for _ in range(k)] loop of [is_prime]. *)
Fixpoint mr_rounds (fuel : nat) (k : nat) (d n : Z) {struct k} : rand bool :=
  match k with
  | O => rret true
  | S k' =>
      rbind (_miller_rabin_test fuel d n) (fun ok =>
      if negb ok then rret false else mr_rounds fuel k' d n)
  end.

Definition is_prime (fuel : nat) (n k : Z) : rand bool :=
  if n <=? 1 then rret false
  else if n <=? 3 then rret true
  else if n mod 2 =? 0 then rret false
  else
    rbind (lift (odd_part fuel (n - 1))) (fun d =>
    mr_rounds fuel (Z.to_nat k) d n).

End Randomised.

Arguments rret {A} a _.
Arguments rbind {A B} r k _.
Arguments lift {A} o _.

(** ** [hashlib.sha256]

    SHA-256 as FIPS 180-4 defines it, on a message given as its bytes.
    A Python [str] is represented by the bytes of [m.encode()], one
    character of a Rocq [string] per byte. *)

Module Sha256.

Definition w32 (x : Z) : Z := x mod 2 ^ 32.

Definition rotr (n x : Z) : Z :=
  Z.lor (Z.shiftr x n) (w32 (Z.shiftl x (32 - n))).

Definition Ch (x y z : Z) : Z :=
  Z.lxor (Z.land x y) (Z.land (Z.lxor x 0xffffffff) z).

Definition Maj (x y z : Z) : Z :=
  Z.lxor (Z.lxor (Z.land x y) (Z.land x z)) (Z.land y z).

Definition bsig0 (x : Z) : Z := Z.lxor (Z.lxor (rotr 2 x) (rotr 13 x)) (rotr 22 x).
Definition bsig1 (x : Z) : Z := Z.lxor (Z.lxor (rotr 6 x) (rotr 11 x)) (rotr 25 x).
Definition ssig0 (x : Z) : Z := Z.lxor (Z.lxor (rotr 7 x) (rotr 18 x)) (Z.shiftr x 3).
Definition ssig1 (x : Z) : Z := Z.lxor (Z.lxor (rotr 17 x) (rotr 19 x)) (Z.shiftr x 10).

(** The first 64 primes: 2, 3, 5, ..., 311. *)
Definition first_primes : list Z :=
  filter (fun p => forallb (fun d => negb (p mod d =? 0))
                           (map Z.of_nat (seq 2 (Z.to_nat p - 2))))
         (map Z.of_nat (seq 2 310)).

(** Integer cube root of a number below [2^120], one bit at a time. *)
Definition cbrt_floor (n : Z) : Z :=
  fold_left (fun r i => let r' := r + 2 ^ Z.of_nat i in
                        if r' * r' * r' <=? n then r' else r)
            (rev (seq 0 40)) 0.

(** Round constants: the first 32 bits of the fractional parts of the
    cube roots of the first 64 primes. *)
Definition K : list Z :=
  map (fun p => w32 (cbrt_floor (p * 2 ^ 96))) first_primes.

(** Initial hash value: the same of the square roots of the first 8
    primes. *)
Definition H0 : list Z :=
  map (fun p => w32 (Z.sqrt (p * 2 ^ 64))) (firstn 8 first_primes).

(** The [n] low bytes of [v], most significant first. *)
Fixpoint be_bytes (n : nat) (v : Z) : list Z :=
  match n with
  | O => []
  | S n' => be_bytes n' (v / 256) ++ [v mod 256]
  end.

Definition pad (msg : list Z) : list Z :=
  let len := Z.of_nat (List.length msg) in
  msg ++ [128] ++ repeat 0 (Z.to_nat ((55 - len) mod 64)) ++ be_bytes 8 (8 * len).

(** Big-endian value of a run of bytes or words of [width] bits. *)
Definition be_value (width : Z) (l : list Z) : Z :=
  fold_left (fun acc b => acc * 2 ^ width + b) l 0.

(** Cut a list into consecutive chunks of [size]; at most [n] of them. *)
Fixpoint chunks {A : Type} (n size : nat) (l : list A) : list (list A) :=
  match n with
  | O => []
  | S n' =>
      match l with
      | [] => []
      | _ => firstn size l :: chunks n' size (skipn size l)
      end
  end.

Fixpoint schedule (n : nat) (w : list Z) : list Z :=
  match n with
  | O => w
  | S n' =>
      let t := List.length w in
      let back i := nth (t - i) w 0 in
      schedule n' (w ++ [w32 (ssig1 (back 2%nat) + back 7%nat
                              + ssig0 (back 15%nat) + back 16%nat)])
  end.

Definition round (st : list Z) (kw : Z * Z) : list Z :=
  match st with
  | [a; b; c; d; e; f; g; h] =>
      let t1 := h + bsig1 e + Ch e f g + fst kw + snd kw in
      let t2 := bsig0 a + Maj a b c in
      [w32 (t1 + t2); a; b; c; w32 (d + t1); e; f; g]
  | _ => st
  end.

Definition compress (hs : list Z) (block : list Z) : list Z :=
  let w := schedule 48 (map (be_value 8) (chunks 16 4 block)) in
  let st := fold_left round (combine K w) hs in
  map (fun p => w32 (fst p + snd p)) (combine hs st).

Definition digest_words (msg : list Z) : list Z :=
  let padded := pad msg in
  fold_left compress (chunks (List.length padded) 64 padded) H0.

Definition bytes_of_string (m : string) : list Z :=
  map (fun c => Z.of_N (N_of_ascii c)) (list_ascii_of_string m).

(** [int(sha256(m.encode()).hexdigest(), 16)]. *)
Definition sha256_int (m : string) : Z :=
  be_value 32 (digest_words (bytes_of_string m)).

End Sha256.

(** ** [rsa.py] *)

Module RSA.

Section Randomised.

Variable src : nat -> Z.

(** The [while True] loop of [gen_large_prime]: linear probing. *)
Fixpoint probe (n fuel : nat) (large_prime : Z) {struct n} : rand Z :=
  match n with
  | O => fun _ => OutOfFuel
  | S n' =>
      rbind (is_prime src fuel large_prime 5) (fun ok =>
      if ok then rret large_prime
      else probe n' fuel (large_prime + 1))
  end.

Definition gen_large_prime (fuel : nat) : rand Z :=
  rbind (randint src (2 ^ 1023) (2 ^ 1024 - 1)) (fun large_prime =>
  probe fuel fuel large_prime).

(** [key_gen()]; [depth] frames are left for [extended_gcd] inside
    [mod_inverse]. *)
Definition key_gen (depth fuel : nat) : rand (Z * Z * Z * Z * Z * Z) :=
  rbind (gen_large_prime fuel) (fun p =>
  rbind (gen_large_prime fuel) (fun q =>
  let n := p * q in
  let phi_n := (p - 1) * (q - 1) in
  let e := 65537 in
  rbind (lift (mod_inverse depth e phi_n)) (fun d =>
  rret (p, q, n, phi_n, e, d)))).

End Randomised.

Fixpoint rsa_encrypt (plaintext_list : list Z) (e n : Z) : outcome (list Z) :=
  match plaintext_list with
  | [] => Ret []
  | m :: rest =>
      c <- quick_pow m e n ;;
      ciphertext_list <- rsa_encrypt rest e n ;;
      Ret (c :: ciphertext_list)
  end.

Fixpoint rsa_decrypt (ciphertext_list : list Z) (d n : Z) : outcome (list Z) :=
  match ciphertext_list with
  | [] => Ret []
  | c :: rest =>
      m <- quick_pow c d n ;;
      plaintext_list <- rsa_decrypt rest d n ;;
      Ret (m :: plaintext_list)
  end.

End RSA.

(** ** [elgamal.py] *)

Module ElGamal.

Section Randomised.

Variable src : nat -> Z.

(** The [while True] loop of [gen_large_prime]: a fresh candidate
    each time round. *)
Fixpoint gen_large_prime_loop (n fuel : nat) {struct n} : rand Z :=
  match n with
  | O => fun _ => OutOfFuel
  | S n' =>
      rbind (randint src (2 ^ 63) (2 ^ 64 - 1)) (fun large_prime =>
      rbind (is_prime src fuel large_prime 5) (fun ok =>
      if ok then
        let q := (large_prime - 1) / 2 in
        rbind (is_prime src fuel q 5) (fun okq =>
        if okq then rret large_prime
        else gen_large_prime_loop n' fuel)
      else gen_large_prime_loop n' fuel))
  end.

Definition gen_large_prime (fuel : nat) : rand Z :=
  gen_large_prime_loop fuel fuel.

End Randomised.

(** The condition inside the [for] loop of [find_generator];
    [and] evaluates its right operand only when the left one holds. *)
Definition generator_test (g q p : Z) : outcome bool :=
  a <- quick_pow g 2 p ;;
  if negb (a =? 1) then
    b <- quick_pow g q p ;;
    Ret (negb (b =? 1))
  else Ret false.

(** [for g in range(g, g + n)] of [find_generator], then [return None]. *)
Fixpoint find_generator_from (n : nat) (g q p : Z) {struct n} : outcome (option Z) :=
  match n with
  | O => Ret None
  | S n' =>
      ok <- generator_test g q p ;;
      if ok then Ret (Some g)
      else find_generator_from n' (g + 1) q p
  end.

Definition find_generator (p : Z) : outcome (option Z) :=
  let q := (p - 1) / 2 in
  find_generator_from (Z.to_nat (p - 2)) 2 q p.

Section Randomised.

Variable src : nat -> Z.

(** The last three lines of [gen_key]: what is done with [p] and with
    the [g] that [find_generator] handed back. *)
Definition gen_key_with (p : Z) (g : option Z) : rand (Z * option Z * Z * Z) :=
  rbind (randint src 2 (p - 2)) (fun x =>
  rbind (lift (quick_pow_obj g x p)) (fun y =>
  rret (p, g, y, x))).

Definition gen_key (fuel : nat) : rand (Z * option Z * Z * Z) :=
  rbind (gen_large_prime src fuel) (fun p =>
  rbind (lift (find_generator p)) (fun g =>
  gen_key_with p g)).

(** The [while True] loop of [signmsg]: draw [k] until it is coprime
    to [p - 1]; the Bezout coefficient of [k] comes along.  Each call of
    [extended_gcd] starts with [depth] frames left. *)
Fixpoint pick_k (depth n : nat) (p : Z) {struct n} : rand (Z * Z) :=
  match n with
  | O => fun _ => OutOfFuel
  | S n' =>
      rbind (randint src 2 (p - 2)) (fun k =>
      rbind (lift (extended_gcd depth k (p - 1))) (fun t =>
      let '(gcd, k_inv, _) := t in
      if gcd =? 1 then rret (k, k_inv)
      else pick_k depth n' p))
  end.

(** [signmsg(m, p, g, x)]; the [print] of the chosen [k] is left out. *)
Definition signmsg (depth fuel : nat) (m : string) (p g x : Z) : rand (Z * Z) :=
  rbind (pick_k depth fuel p) (fun kk =>
  let '(k, k_inv) := kk in
  let H_int := Sha256.sha256_int m in
  rbind (lift (quick_pow g k p)) (fun r =>
  rbind (lift (py_mod (k_inv * (H_int - x * r)) (p - 1))) (fun s =>
  rret (r, s)))).

End Randomised.

Definition verify (m : string) (r s p g y : Z) : outcome bool :=
  let H_int := Sha256.sha256_int m in
  a <- quick_pow y r p ;;
  b <- quick_pow r s p ;;
  yrrs <- py_mod (a * b) p ;;
  gH <- quick_pow g H_int p ;;
  Ret (yrrs =? gH).

End ElGamal.

(** ** More of [rsa.py]: the key from two primes, and the text helpers *)

(** The lines of [key_gen] after the two calls of [gen_large_prime]. *)
Definition key_gen_with (depth : nat) (p q : Z) : outcome (Z * Z * Z * Z * Z * Z) :=
  let n := p * q in
  let phi_n := (p - 1) * (q - 1) in
  let e := 65537 in
  d <- mod_inverse depth e phi_n ;;
  Ret (p, q, n, phi_n, e, d).

(** A Python [str] is the list of its code points, each in
    [[0, 0x10FFFF]]; the text helpers are modelled on the [str] that
    [file.read()] hands them, the reading itself left out. *)
Definition ord (char : Z) : Z := char.

(** [chr(number)]: CPython first converts the argument to a C [int],
    32 bits wide, and raises [OverflowError] when it does not fit; what
    fits must then be a code point. *)
Definition chr (number : Z) : outcome Z :=
  if (number <? -2147483648) || (2147483647 <? number) then Raise OverflowError
  else if (0 <=? number) && (number <=? 0x10FFFF) then Ret number
  else Raise ValueError.

Definition read_file_to_int_list (content : list Z) : list Z :=
  map ord content.

Fixpoint int_list_to_string (int_list : list Z) : outcome (list Z) :=
  match int_list with
  | [] => Ret []
  | number :: rest =>
      char <- chr number ;;
      char_list <- int_list_to_string rest ;;
      Ret (char :: char_list)
  end.

(** [f"{n:02d}"]: the decimal digits of [n], a zero in front when that
    is a single character. *)
Definition format_02d (n : Z) : string :=
  let digits := NilZero.string_of_int (Z.to_int n) in
  if (String.length digits <? 2)%nat then String "0" digits else digits.

(** What [file2int] could meet besides a result: [int_list[i + 1]] past
    the end, [int] on something that is no decimal literal. *)
Inductive text_exn : Type :=
| IndexError
| IntValueError.

(** [int(s)] on a string of decimal digits. *)
Definition int_of_str (s : string) : Z + text_exn :=
  match NilZero.int_of_string s with
  | Some d => inl (Z.of_int d)
  | None => inr IntValueError
  end.

(** First loop of [file2int]: the two-digit code of every printable
    character; the others are passed over. *)
Fixpoint two_digit_codes (content : list Z) : list string :=
  match content with
  | [] => []
  | char :: rest =>
      if (32 <=? ord char) && (ord char <=? 126)
      then format_02d (ord char - 32) :: two_digit_codes rest
      else two_digit_codes rest
  end.

(** Last loop of [file2int]: [int(int_list[i] + int_list[i + 1])] for
    [i = 0, 2, 4, ...] below [len(int_list)]. *)
Fixpoint four_digit_numbers (int_list : list string) : list Z + text_exn :=
  match int_list with
  | [] => inl []
  | [_] => inr IndexError
  | a :: b :: rest =>
      match int_of_str (a ++ b) with
      | inr e => inr e
      | inl number =>
          match four_digit_numbers rest with
          | inr e => inr e
          | inl four_digit_list => inl (number :: four_digit_list)
          end
      end
  end.

Definition file2int (content : list Z) : (list Z * Z) + text_exn :=
  let int_list := two_digit_codes content in
  let original_len := Z.of_nat (List.length int_list) in
  let int_list :=
    if negb (Z.of_nat (List.length int_list) mod 2 =? 0)
    then int_list ++ ["00"%string] else int_list in
  match four_digit_numbers int_list with
  | inr e => inr e
  | inl four_digit_list => inl (four_digit_list, original_len)
  end.

Fixpoint int2string (int_list : list Z) : list Z :=
  match int_list with
  | [] => []
  | number :: rest =>
      let first_two_digits := number / 100 in
      let second_two_digits := number mod 100 in
      (if (0 <=? first_two_digits) && (first_two_digits <=? 94)
       then [first_two_digits + 32] else [])
      ++ (if (0 <=? second_two_digits) && (second_two_digits <=? 94)
          then [second_two_digits + 32] else [])
      ++ int2string rest
  end.

(** * Properties *)

(** The constants and the digest agree with the published values. *)

Example sha256_constants :
  List.length Sha256.K = 64%nat /\
  nth 0 Sha256.K 0 = 0x428a2f98 /\ nth 63 Sha256.K 0 = 0xc67178f2 /\
  nth 0 Sha256.H0 0 = 0x6a09e667 /\ nth 7 Sha256.H0 0 = 0x5be0cd19.
Proof. vm_compute. repeat split; reflexivity. Qed.

Example sha256_abc :
  Sha256.sha256_int "abc"%string
  = 0xba7816bf8f01cfea414140de5dae2223b00361a396177a9cb410ff61f20015ad.
Proof. vm_compute. reflexivity. Qed.

Example sha256_empty :
  Sha256.sha256_int EmptyString
  = 0xe3b0c44298fc1c149afbf4c8996fb92427ae41e4649b934ca495991b7852b855.
Proof. vm_compute. reflexivity. Qed.

Example sha256_long :
  Sha256.sha256_int "abcdbcdecdefdefgefghfghighijhijkijkljklmklmnlmnomnopnopq"%string
  = 0x248d6a61d20638b8e5c026930c3e6039a33ce45964ff2167f6ecedd419db06c1.
Proof. vm_compute. reflexivity. Qed.

(** ** Modular exponentiation *)

Lemma py_mod_nz (a b : Z) : b <> 0 -> py_mod a b = Ret (a mod b).
Proof.
  intro Hb. unfold py_mod.
  destruct (Z.eqb_spec b 0); [contradiction | reflexivity].
Qed.

Lemma land_1_mod2 (e : Z) : Z.land e 1 = e mod 2.
Proof. change 1 with (Z.ones 1) at 1. now rewrite Z.land_ones by lia. Qed.

Lemma shiftr_1_div2 (e : Z) : Z.shiftr e 1 = e / 2.
Proof. now rewrite Z.shiftr_div_pow2 by lia. Qed.

Lemma bit_length_half (e : Z) (fuel : nat) :
  0 < e -> (bit_length e <= S fuel)%nat -> (bit_length (e / 2) <= fuel)%nat.
Proof.
  intros He Hle. unfold bit_length in *.
  destruct (Z.leb_spec e 0); [lia |].
  destruct (Z.leb_spec (e / 2) 0) as [H2 | H2]; [lia |].
  rewrite <- shiftr_1_div2, Z.log2_shiftr by lia.
  assert (1 <= Z.log2 e).
  { apply Z.log2_le_pow2; [lia |].
    assert (1 <= e / 2) by lia.
    pose proof (Z.mul_div_le e 2 ltac:(lia)). change (2 ^ 1) with 2. lia. }
  lia.
Qed.

Lemma pow_split (m e : Z) :
  0 < e -> m ^ e = (m * m) ^ (e / 2) * m ^ (e mod 2).
Proof.
  intro He.
  rewrite (Z.div_mod e 2) at 1 by lia.
  pose proof (Z.mod_pos_bound e 2 ltac:(lia)).
  assert (0 <= e / 2) by (apply Z.div_pos; lia).
  rewrite Z.pow_add_r, Z.pow_mul_r by lia.
  now rewrite Z.pow_2_r.
Qed.

(** What the loop computes, given enough iterations. *)
Lemma quick_pow_loop_spec (fuel : nat) :
  forall ans m e n,
    n <> 0 -> 0 <= e -> (bit_length e <= fuel)%nat ->
    quick_pow_loop fuel ans m e n
    = Ret (if e =? 0 then ans else (ans * m ^ e) mod n).
Proof.
  induction fuel as [| fuel IH]; intros ans m e n Hn He Hfuel.
  - assert (e = 0).
    { unfold bit_length in Hfuel. destruct (Z.leb_spec e 0); lia. }
    subst e. reflexivity.
  - cbn [quick_pow_loop].
    destruct (Z.eqb_spec e 0) as [-> | Hnz]; [reflexivity |].
    assert (Hpos : 0 < e) by lia.
    rewrite land_1_mod2, shiftr_1_div2.
    pose proof (Z.mod_pos_bound e 2 ltac:(lia)) as Hbit.
    assert (Hhalf : 0 <= e / 2) by (apply Z.div_pos; lia).
    pose proof (bit_length_half e fuel Hpos Hfuel) as Hfuel'.
    pose proof (pow_split m e Hpos) as Hsplit.
    pose proof (Z.div_mod e 2 ltac:(lia)) as Hdm.
    destruct (Z.eqb_spec (e mod 2) 0) as [Heven | Hodd].
    + cbn [bind]. rewrite py_mod_nz by assumption. cbn [bind].
      rewrite IH by assumption.
      destruct (Z.eqb_spec (e / 2) 0) as [H0 | H0]; [lia |].
      f_equal. rewrite Hsplit, Heven, Z.pow_0_r, Z.mul_1_r.
      rewrite <- (Z.mul_mod_idemp_r ans ((m * m) ^ (e / 2))) by assumption.
      rewrite <- (Z.mul_mod_idemp_r ans (((m * m) mod n) ^ (e / 2))) by assumption.
      now rewrite Z.mod_pow_l.
    + assert (Hone : e mod 2 = 1) by lia.
      rewrite !py_mod_nz by assumption. cbn [bind].
      rewrite IH by assumption.
      rewrite Hsplit, Hone, Z.pow_1_r.
      destruct (Z.eqb_spec (e / 2) 0) as [H0 | H0].
      * rewrite H0, Z.pow_0_r. f_equal. f_equal. ring.
      * f_equal.
        rewrite Z.mul_mod_idemp_l by assumption.
        rewrite <- (Z.mul_mod_idemp_r (ans * m) (((m * m) mod n) ^ (e / 2))) by assumption.
        rewrite Z.mod_pow_l.
        rewrite Z.mul_mod_idemp_r by assumption.
        f_equal. ring.
Qed.

Lemma quick_pow_spec (m e n : Z) :
  n <> 0 -> 0 <= e ->
  quick_pow m e n = Ret (if e =? 0 then 1 else m ^ e mod n).
Proof.
  intros Hn He. unfold quick_pow.
  rewrite quick_pow_loop_spec by (auto; lia).
  now rewrite Z.mul_1_l.
Qed.

Lemma quick_pow_pos (m e n : Z) :
  n <> 0 -> 0 < e -> quick_pow m e n = Ret (m ^ e mod n).
Proof.
  intros Hn He. rewrite quick_pow_spec by lia.
  destruct (Z.eqb_spec e 0); [lia | reflexivity].
Qed.

Lemma quick_pow_mod (m e n : Z) :
  1 < n -> 0 <= e -> quick_pow m e n = Ret (m ^ e mod n).
Proof.
  intros Hn He. rewrite quick_pow_spec by lia.
  destruct (Z.eqb_spec e 0) as [-> | _]; [| reflexivity].
  now rewrite Z.pow_0_r, Z.mod_1_l.
Qed.

(** The answer of [quick_pow] is the answer of the loop under any larger
    amount of fuel. *)
Lemma quick_pow_loop_enough (fuel : nat) (m e n : Z) :
  0 <= e -> (bit_length e <= fuel)%nat ->
  quick_pow_loop fuel 1 m e n = quick_pow m e n.
Proof.
  intros He Hfuel. unfold quick_pow.
  destruct (Z.eqb_spec n 0) as [-> | Hn].
  - destruct (Z.eqb_spec e 0) as [-> | Hnz].
    + destruct fuel; reflexivity.
    + assert (Hb : exists k, bit_length e = S k).
      { unfold bit_length. destruct (Z.leb_spec e 0); [lia | eauto]. }
      destruct Hb as [k Hk]. rewrite Hk.
      destruct fuel as [| fuel]; [lia |].
      cbn [quick_pow_loop].
      destruct (Z.eqb_spec e 0); [contradiction |].
      unfold py_mod. cbn.
      destruct (Z.land e 1 =? 0); reflexivity.
  - now rewrite !quick_pow_loop_spec by (auto; lia).
Qed.

(** On a negative exponent the loop never ends. *)
Lemma quick_pow_loop_negative (fuel : nat) :
  forall ans m e n, n <> 0 -> e < 0 -> quick_pow_loop fuel ans m e n = OutOfFuel.
Proof.
  induction fuel as [| fuel IH]; intros ans m e n Hn He; cbn [quick_pow_loop];
    destruct (Z.eqb_spec e 0); try lia; try reflexivity.
  assert (Hhalf : Z.shiftr e 1 < 0).
  { rewrite shiftr_1_div2. apply Z.div_lt_upper_bound; lia. }
  destruct (Z.land e 1 =? 0); rewrite ?py_mod_nz by assumption; cbn [bind];
    now apply IH.
Qed.


(** ** Extended Euclid *)

(** One call: the base case, or a nested call and the two updates. *)
Lemma extended_gcd_step (depth : nat) (a b : Z) :
  extended_gcd (S depth) a b =
  if b =? 0 then Ret (a, 1, 0)
  else t <- extended_gcd depth b (a mod b) ;;
       let '(gcd, x1, y1) := t in
       Ret (gcd, y1, x1 - (a / b) * y1).
Proof. reflexivity. Qed.

(** A call that returns on [b <> 0] made a nested call that returned. *)
Lemma extended_gcd_ret_inv (depth : nat) (a b g x y : Z) :
  b <> 0 ->
  extended_gcd depth a b = Ret (g, x, y) ->
  exists depth' x1,
    depth = S depth' /\
    extended_gcd depth' b (a mod b) = Ret (g, x1, x) /\
    y = x1 - (a / b) * x.
Proof.
  intros Hb H. destruct depth as [| depth']; [discriminate |].
  rewrite extended_gcd_step in H.
  destruct (Z.eqb_spec b 0); [contradiction |].
  destruct (extended_gcd depth' b (a mod b)) as [[[g' x1] y1] | |] eqn:Hrec;
    try discriminate.
  cbn in H. exists depth', x1.
  assert (g' = g /\ y1 = x /\ x1 - a / b * y1 = y) as (-> & -> & <-)
    by (repeat split; congruence).
  auto.
Qed.

Lemma extended_gcd_ret_zero (depth : nat) (a g x y : Z) :
  extended_gcd depth a 0 = Ret (g, x, y) -> g = a /\ x = 1 /\ y = 0.
Proof.
  destruct depth as [| depth']; [discriminate |].
  rewrite extended_gcd_step. cbn. intro H.
  repeat split; congruence.
Qed.

Lemma extended_gcd_bezout (depth : nat) :
  forall a b g x y, extended_gcd depth a b = Ret (g, x, y) -> a * x + b * y = g.
Proof.
  induction depth as [| depth IH]; intros a b g x y H; [discriminate |].
  destruct (Z.eq_dec b 0) as [-> | Hb].
  - apply extended_gcd_ret_zero in H. destruct H as (-> & -> & ->). ring.
  - apply extended_gcd_ret_inv in H; [| assumption].
    destruct H as (depth' & x1 & Hd & Hrec & ->).
    assert (depth' = depth) by congruence. subst depth'.
    apply IH in Hrec. rewrite <- Hrec.
    rewrite (Z.div_mod a b Hb) at 1.
    rewrite (Z.mul_comm b (a / b)).
    remember (a / b) as qt. remember (a mod b) as rm. ring.
Qed.

(** What [extended_gcd] calls the gcd has the sign of the last divisor
    of the remainder sequence. *)
Lemma extended_gcd_sign (depth : nat) :
  forall a b g x y,
    extended_gcd depth a b = Ret (g, x, y) ->
    (b = 0 -> g = a) /\ (0 < b -> 0 < g) /\ (b < 0 -> g < 0) /\
    Z.abs g = Z.gcd a b.
Proof.
  induction depth as [| depth IH]; intros a b g x y H; [discriminate |].
  destruct (Z.eq_dec b 0) as [-> | Hb].
  - apply extended_gcd_ret_zero in H. destruct H as (-> & -> & ->).
    repeat split; try lia. now rewrite Z.gcd_0_r.
  - apply extended_gcd_ret_inv in H; [| assumption].
    destruct H as (depth' & x1 & Hd & Hrec & ->).
    assert (depth' = depth) by congruence. subst depth'.
    apply IH in Hrec. destruct Hrec as (H0 & Hpos & Hneg & Hgcd).
    split; [lia |]. split; [| split].
    + intro Hbpos. pose proof (Z.mod_pos_bound a b Hbpos).
      destruct (Z.eq_dec (a mod b) 0) as [Hz | Hnz];
        [rewrite (H0 Hz); assumption | apply Hpos; lia].
    + intro Hbneg. pose proof (Z.mod_neg_bound a b Hbneg).
      destruct (Z.eq_dec (a mod b) 0) as [Hz | Hnz];
        [rewrite (H0 Hz); assumption | apply Hneg; lia].
    + rewrite Hgcd, Z.gcd_comm, Z.gcd_mod by assumption.
      apply Z.gcd_comm.
Qed.

Lemma extended_gcd_is_gcd (depth : nat) (a b g x y : Z) :
  0 <= b -> (b = 0 -> 0 <= a) ->
  extended_gcd depth a b = Ret (g, x, y) -> g = Z.gcd a b.
Proof.
  intros Hb Ha H. apply extended_gcd_sign in H.
  destruct H as (H0 & Hpos & _ & Habs).
  destruct (Z.eq_dec b 0) as [Hz | Hnz].
  - specialize (H0 Hz). specialize (Ha Hz). lia.
  - specialize (Hpos ltac:(lia)). lia.
Qed.

(** The call returns or it runs out of frames: nothing else. *)
Lemma extended_gcd_outcome (depth : nat) :
  forall a b,
    (exists t, extended_gcd depth a b = Ret t) \/
    extended_gcd depth a b = Raise RecursionError.
Proof.
  induction depth as [| depth IH]; intros a b; [now right |].
  rewrite extended_gcd_step.
  destruct (Z.eqb_spec b 0); [left; eauto |].
  destruct (IH b (a mod b)) as [[[[g x1] y1] Hrec] | Hrec]; rewrite Hrec; cbn.
  - left. eauto.
  - now right.
Qed.

(** More frames do not change a result. *)
Lemma extended_gcd_more_frames (depth : nat) :
  forall depth' a b t,
    (depth <= depth')%nat ->
    extended_gcd depth a b = Ret t -> extended_gcd depth' a b = Ret t.
Proof.
  induction depth as [| depth IH]; intros depth' a b t Hle H; [discriminate |].
  destruct depth' as [| depth']; [lia |].
  rewrite extended_gcd_step in *.
  destruct (Z.eqb_spec b 0); [assumption |].
  destruct (extended_gcd depth b (a mod b)) as [t1 | |] eqn:Hrec;
    try discriminate.
  rewrite (IH depth' b (a mod b) t1 ltac:(lia) Hrec). exact H.
Qed.

(** Two steps of the remainder sequence at least halve the divisor. *)
Lemma remainder_halves (a b : Z) :
  b <> 0 -> a mod b <> 0 -> 2 * Z.abs (b mod (a mod b)) < Z.abs b.
Proof.
  intros Hb Hr.
  pose proof (Z.div_mod b (a mod b) Hr) as Hdm.
  destruct (Z_lt_le_dec 0 b) as [Hpos | Hneg].
  - pose proof (Z.mod_pos_bound a b Hpos) as H1.
    pose proof (Z.mod_pos_bound b (a mod b) ltac:(lia)) as H2.
    assert (1 <= b / (a mod b)) by (apply Z.div_le_lower_bound; lia).
    nia.
  - assert (Hlt : b < 0) by lia.
    pose proof (Z.mod_neg_bound a b Hlt) as H1.
    pose proof (Z.mod_neg_bound b (a mod b) ltac:(lia)) as H2.
    assert (1 <= b / (a mod b)).
    { rewrite <- Z.div_opp_opp by assumption.
      apply Z.div_le_lower_bound; lia. }
    nia.
Qed.

(** Two frames for every bit of the divisor, and one, are enough. *)
Lemma extended_gcd_enough (k : nat) :
  forall depth a b,
    Z.abs b < 2 ^ Z.of_nat k -> (2 * k + 1 <= depth)%nat ->
    exists t, extended_gcd depth a b = Ret t.
Proof.
  induction k as [| k IH]; intros depth a b Hb Hdepth.
  - change (2 ^ Z.of_nat 0) with 1 in Hb. assert (b = 0) by lia. subst b.
    destruct depth as [| depth]; [lia |]. rewrite extended_gcd_step. cbn. eauto.
  - destruct depth as [| [| depth]]; try lia.
    rewrite extended_gcd_step.
    destruct (Z.eqb_spec b 0); [eauto |].
    rewrite extended_gcd_step.
    destruct (Z.eqb_spec (a mod b) 0) as [Hz | Hnz]; [cbn; eauto |].
    destruct (IH depth (a mod b) (b mod (a mod b))) as [[[g x1] y1] Hrec].
    + pose proof (remainder_halves a b ltac:(assumption) Hnz) as Hhalf.
      rewrite Nat2Z.inj_succ, Z.pow_succ_r in Hb by lia. lia.
    + lia.
    + rewrite Hrec. cbn. eauto.
Qed.

Lemma abs_below_pow (b : Z) :
  Z.abs b < 2 ^ Z.of_nat (S (Z.to_nat (Z.log2 (Z.abs b)))).
Proof.
  rewrite Nat2Z.inj_succ, Z2Nat.id by apply Z.log2_nonneg.
  destruct (Z.eq_dec b 0) as [-> | Hb]; [reflexivity |].
  apply Z.log2_spec. lia.
Qed.

(** With [enough_frames b] frames left the call returns. *)
Lemma extended_gcd_returns (depth : nat) (a b : Z) :
  (enough_frames b <= depth)%nat -> exists t, extended_gcd depth a b = Ret t.
Proof.
  intro H. unfold enough_frames in H.
  apply (extended_gcd_enough (S (Z.to_nat (Z.log2 (Z.abs b)))));
    [apply abs_below_pow | lia].
Qed.

(** A small first argument keeps the recursion short whatever the
    second: the first remainder is the first argument at most. *)
Lemma extended_gcd_returns_small (depth : nat) (a b : Z) :
  0 <= a -> 0 < b -> (S (enough_frames a) <= depth)%nat ->
  exists t, extended_gcd depth a b = Ret t.
Proof.
  intros Ha Hb H. unfold enough_frames in H.
  destruct depth as [| depth]; [lia |].
  rewrite extended_gcd_step.
  destruct (Z.eqb_spec b 0); [lia |].
  destruct (extended_gcd_enough (S (Z.to_nat (Z.log2 (Z.abs a))))
              depth b (a mod b)) as [[[g x1] y1] Hrec].
  - pose proof (Z.mod_pos_bound a b Hb).
    pose proof (Z.mod_le a b Ha Hb).
    pose proof (abs_below_pow a). lia.
  - lia.
  - rewrite Hrec. cbn. eauto.
Qed.

(** ** Modular inverse *)

Lemma mod_inverse_of_triple (depth : nat) (e m g x y : Z) :
  extended_gcd depth e m = Ret (g, x, y) ->
  mod_inverse depth e m
  = if negb (g =? 1) then Raise ValueError else py_mod x m.
Proof. unfold mod_inverse. intros ->. reflexivity. Qed.

Lemma mod_inverse_no_frames (depth : nat) (e m : Z) :
  extended_gcd depth e m = Raise RecursionError ->
  mod_inverse depth e m = Raise RecursionError.
Proof. unfold mod_inverse. intros ->. reflexivity. Qed.

Lemma mod_inverse_unfold (depth : nat) (e m : Z) :
  0 < m ->
  (exists t, extended_gcd depth e m = Ret t) ->
  exists x y,
    e * x + m * y = Z.gcd e m /\
    mod_inverse depth e m
    = if Z.gcd e m =? 1 then Ret (x mod m) else Raise ValueError.
Proof.
  intros Hm [[[g x] y] Heq].
  rewrite (mod_inverse_of_triple _ _ _ _ _ _ Heq).
  pose proof (extended_gcd_is_gcd depth e m g x y ltac:(lia) ltac:(lia) Heq) as Hg.
  subst g. exists x, y. split.
  - now apply (extended_gcd_bezout depth).
  - destruct (Z.gcd e m =? 1); cbn; [apply py_mod_nz; lia | reflexivity].
Qed.

Lemma mod_inverse_raises (depth : nat) (e m : Z) :
  0 < m ->
  (exists t, extended_gcd depth e m = Ret t) ->
  ((exists err, mod_inverse depth e m = Raise err) <-> Z.gcd e m <> 1) /\
  (Z.gcd e m <> 1 -> mod_inverse depth e m = Raise ValueError).
Proof.
  intros Hm Hret.
  destruct (mod_inverse_unfold depth e m Hm Hret) as (x & y & Hbez & Hinv).
  rewrite Hinv. destruct (Z.eqb_spec (Z.gcd e m) 1) as [Hg | Hg]; split.
  - split; [intros [err Herr]; discriminate | intro Hne; contradiction].
  - intro Hne. contradiction.
  - split; [intros _; assumption | intros _; now exists ValueError].
  - reflexivity.
Qed.

Lemma mod_inverse_returns (depth : nat) (e m : Z) :
  1 < m -> Z.gcd e m = 1 ->
  (exists t, extended_gcd depth e m = Ret t) ->
  exists d, mod_inverse depth e m = Ret d /\ 0 <= d < m /\ (e * d) mod m = 1.
Proof.
  intros Hm Hg Hret.
  destruct (mod_inverse_unfold depth e m ltac:(lia) Hret) as (x & y & Hbez & Hinv).
  rewrite Hinv, Hg. cbn.
  exists (x mod m). split; [reflexivity |].
  split; [apply Z.mod_pos_bound; lia |].
  rewrite Z.mul_mod_idemp_r by lia.
  replace (e * x) with (1 + (- y) * m) by lia.
  rewrite Z.mod_add by lia. apply Z.mod_1_l. lia.
Qed.

(** What a call that returned, or raised, says about its arguments. *)
Lemma mod_inverse_ret_inv (depth : nat) (e m d : Z) :
  0 < m ->
  mod_inverse depth e m = Ret d ->
  Z.gcd e m = 1 /\ 0 <= d < m /\ (1 < m -> (e * d) mod m = 1).
Proof.
  intros Hm H.
  destruct (extended_gcd_outcome depth e m) as [Hret | Hno].
  - destruct (mod_inverse_unfold depth e m Hm Hret) as (x & y & Hbez & Hinv).
    rewrite Hinv in H.
    destruct (Z.eqb_spec (Z.gcd e m) 1) as [Hg | Hg]; [| discriminate].
    assert (d = x mod m) by congruence. subst d.
    split; [assumption |]. split; [apply Z.mod_pos_bound; lia |].
    intro Hm1. rewrite Z.mul_mod_idemp_r by lia.
    replace (e * x) with (1 + (- y) * m) by lia.
    rewrite Z.mod_add by lia. apply Z.mod_1_l. lia.
  - rewrite (mod_inverse_no_frames _ _ _ Hno) in H. discriminate.
Qed.



(** ** The recursion on consecutive Fibonacci numbers *)

Lemma fib_pair_spec (n : nat) : fib_pair n = (fib n, fib (S n)).
Proof.
  unfold fib. cbn [fib_pair].
  destruct (fib_pair n) as [a b]. reflexivity.
Qed.

Lemma fib_step (n : nat) : fib (S (S n)) = fib n + fib (S n).
Proof.
  unfold fib at 1. cbn [fib_pair]. rewrite fib_pair_spec. reflexivity.
Qed.

Lemma fib_positive (n : nat) : 0 <= fib n /\ 0 < fib (S n).
Proof.
  induction n as [| n [IH0 IH1]]; [split; [reflexivity | reflexivity] |].
  split; [lia | rewrite fib_step; lia].
Qed.


(** From the third Fibonacci number on, the remainder of a Fibonacci
    number by the one before is the one before that. *)
Lemma fib_remainder (n : nat) :
  fib (S (S (S (S n)))) mod fib (S (S (S n))) = fib (S (S n)).
Proof.
  pose proof (fib_positive n) as [_ H1].
  pose proof (fib_positive (S n)) as [_ H2].
  rewrite (fib_step (S (S n))).
  rewrite <- (Z.mul_1_l (fib (S (S (S n))))) at 1.
  rewrite Z.mod_add by (rewrite fib_step; lia).
  apply Z.mod_small. rewrite (fib_step (S n)). lia.
Qed.

(** [extended_gcd(fib(n + 3), fib(n + 2))] makes [n + 2] nested calls:
    with fewer frames it raises. *)
Lemma extended_gcd_fib_deep (n : nat) :
  forall depth,
    (depth <= S n)%nat ->
    extended_gcd depth (fib (S (S (S n)))) (fib (S (S n)))
    = Raise RecursionError.
Proof.
  induction n as [| n IH]; intros depth Hd.
  - destruct depth as [| [| depth]]; [reflexivity | reflexivity | lia].
  - destruct depth as [| depth]; [reflexivity |].
    rewrite extended_gcd_step.
    pose proof (fib_positive (S (S n))) as [_ Hpos].
    destruct (Z.eqb_spec (fib (S (S (S n)))) 0); [lia |].
    rewrite fib_remainder, IH by lia. reflexivity.
Qed.



(** ** Arithmetic modulo a prime *)

(** Exponents that agree modulo [p - 1] give the same power modulo [p]:
    the step from [1] to [1 + (p - 1) * t]. *)
Lemma pow_fermat_cycle (p a t : Z) :
  Z.prime p -> a mod p <> 0 -> 0 <= t -> a ^ ((p - 1) * t) mod p = 1.
Proof.
  intros Hp Ha Ht.
  pose proof (Z.prime_ge_2 p Hp).
  rewrite Z.pow_mul_r by lia.
  rewrite <- Z.mod_pow_l, (Z.fermat_nz p a Hp Ha).
  rewrite Z.pow_1_l by lia. apply Z.mod_1_l. lia.
Qed.

Lemma pow_one_more_cycle (p m t : Z) :
  Z.prime p -> 0 <= t -> m ^ (1 + (p - 1) * t) mod p = m mod p.
Proof.
  intros Hp Ht.
  pose proof (Z.prime_ge_2 p Hp).
  rewrite Z.pow_add_r, Z.pow_1_r by nia.
  destruct (Z.eq_dec (m mod p) 0) as [H0 | Hnz].
  - rewrite <- Z.mul_mod_idemp_l, H0 by lia. reflexivity.
  - rewrite <- Z.mul_mod_idemp_r, pow_fermat_cycle by (auto; lia).
    now rewrite Z.mul_1_r.
Qed.

Lemma distinct_primes_coprime (p q : Z) :
  Z.prime p -> Z.prime q -> p <> q -> Z.gcd p q = 1.
Proof.
  intros Hp Hq Hne.
  apply Z.coprime_prime_l; [assumption |].
  intro Hdiv. apply Hne. now apply Z.divide_prime_prime.
Qed.

(** The arithmetic heart of RSA. *)
Lemma rsa_exponent_cycle (p q k m : Z) :
  Z.prime p -> Z.prime q -> p <> q ->
  0 <= k -> k mod ((p - 1) * (q - 1)) = 1 ->
  m ^ k mod (p * q) = m mod (p * q).
Proof.
  intros Hp Hq Hne Hk Hmod.
  pose proof (Z.prime_ge_2 p Hp). pose proof (Z.prime_ge_2 q Hq).
  set (phi := (p - 1) * (q - 1)) in *.
  assert (Hphi : 0 < phi) by (unfold phi; nia).
  pose proof (Z.div_mod k phi ltac:(lia)) as Hdm. rewrite Hmod in Hdm.
  assert (Ht : 0 <= k / phi) by (apply Z.div_pos; lia).
  set (t := k / phi) in *.
  assert (Hkp : k = 1 + (p - 1) * ((q - 1) * t)) by (unfold phi in Hdm; lia).
  assert (Hkq : k = 1 + (q - 1) * ((p - 1) * t)) by (unfold phi in Hdm; lia).
  assert (Hdp : (p | m ^ k - m)).
  { apply Z.mod_divide; [lia |]. apply Z.cong_iff_0.
    rewrite Hkp. apply pow_one_more_cycle; [assumption | nia]. }
  assert (Hdq : (q | m ^ k - m)).
  { apply Z.mod_divide; [lia |]. apply Z.cong_iff_0.
    rewrite Hkq. apply pow_one_more_cycle; [assumption | nia]. }
  apply Z.cong_iff_0. apply Z.mod_divide; [nia |].
  destruct Hdp as [c Hc]. rewrite Hc in Hdq |- *.
  rewrite Z.mul_comm in Hdq.
  apply Z.gauss in Hdq; [| apply distinct_primes_coprime; auto].
  destruct Hdq as [c' ->]. exists c'. ring.
Qed.

(** ** RSA *)

Lemma rsa_encrypt_spec (e n : Z) (plaintext_list : list Z) :
  1 < n -> 0 <= e ->
  RSA.rsa_encrypt plaintext_list e n
  = Ret (map (fun m => m ^ e mod n) plaintext_list).
Proof.
  intros Hn He.
  induction plaintext_list as [| m rest IH]; cbn [RSA.rsa_encrypt map].
  - reflexivity.
  - rewrite quick_pow_mod by assumption. cbn [bind].
    rewrite IH. reflexivity.
Qed.

Lemma rsa_decrypt_spec (d n : Z) (ciphertext_list : list Z) :
  1 < n -> 0 <= d ->
  RSA.rsa_decrypt ciphertext_list d n
  = Ret (map (fun c => c ^ d mod n) ciphertext_list).
Proof.
  intros Hn Hd.
  induction ciphertext_list as [| c rest IH]; cbn [RSA.rsa_decrypt map].
  - reflexivity.
  - rewrite quick_pow_mod by assumption. cbn [bind].
    rewrite IH. reflexivity.
Qed.

(** C1, as the code has it.  With [p], [q] distinct primes, [n = p * q],
    exponents [e], [d] that are not negative and such that
    [(e * d) % ((p - 1) * (q - 1)) == 1], and every plaintext integer in
    [[0, n)]: [rsa_encrypt] returns a ciphertext list, and [rsa_decrypt]
    of that list returns the plaintext list again. *)
Theorem rsa_round_trip (p q n e d : Z) (plaintext_list : list Z) :
  Z.prime p -> Z.prime q -> p <> q -> n = p * q ->
  0 <= e -> 0 <= d ->
  (e * d) mod ((p - 1) * (q - 1)) = 1 ->
  Forall (fun m => 0 <= m < n) plaintext_list ->
  exists ciphertext_list,
    RSA.rsa_encrypt plaintext_list e n = Ret ciphertext_list /\
    RSA.rsa_decrypt ciphertext_list d n = Ret plaintext_list.
Proof.
  intros Hp Hq Hne Hn He Hd Hed Hrange.
  pose proof (Z.prime_ge_2 p Hp). pose proof (Z.prime_ge_2 q Hq).
  assert (Hn1 : 1 < n) by nia.
  eexists. split; [now apply rsa_encrypt_spec |].
  rewrite rsa_decrypt_spec by assumption. f_equal.
  rewrite map_map.
  rewrite <- (map_id plaintext_list) at 2.
  apply map_ext_in. intros m Hin.
  rewrite Forall_forall in Hrange. specialize (Hrange m Hin).
  rewrite Z.mod_pow_l, <- Z.pow_mul_r by assumption.
  subst n. rewrite rsa_exponent_cycle by (auto; nia).
  apply Z.mod_small. lia.
Qed.


(** ** Random draws *)

Lemma rbind_ret_inv {A B : Type} (r : rand A) (k : A -> rand B) c b c' :
  rbind r k c = Ret (b, c') ->
  exists a c1, r c = Ret (a, c1) /\ k a c1 = Ret (b, c').
Proof.
  unfold rbind. destruct (r c) as [[a c1] | e |]; try discriminate.
  intro H. now exists a, c1.
Qed.

Lemma lift_ret_inv {A : Type} (o : outcome A) c a c' :
  lift o c = Ret (a, c') -> o = Ret a /\ c' = c.
Proof.
  unfold lift. destruct o; try discriminate.
  intro H. injection H as <- <-. auto.
Qed.

Lemma randint_ret (src : nat -> Z) (lo hi : Z) (c : nat) :
  lo <= hi ->
  randint src lo hi c = Ret (lo + src c mod (hi - lo + 1), S c).
Proof.
  intro Hle. unfold randint. destruct (Z.ltb_spec hi lo); [lia | reflexivity].
Qed.

Lemma randint_ret_inv (src : nat -> Z) (lo hi : Z) (c : nat) v c' :
  randint src lo hi c = Ret (v, c') -> lo <= v <= hi /\ c' = S c.
Proof.
  unfold randint. destruct (Z.ltb_spec hi lo) as [Hlt | Hle]; [discriminate |].
  intro H. injection H as <- <-.
  pose proof (Z.mod_pos_bound (src c) (hi - lo + 1) ltac:(lia)). lia.
Qed.

Lemma pick_witness_ret (src : nat -> Z) (n : Z) (c : nat) :
  5 <= n ->
  pick_witness src n c = Ret (3 + src c mod (n - 4), S c).
Proof.
  intro Hn. unfold pick_witness, rbind.
  rewrite randint_ret by lia. unfold rret.
  do 2 f_equal. replace (n - 4 - 1 + 1) with (n - 4) by lia. lia.
Qed.

(** C4, as the code has it.  For [n >= 5], each Miller-Rabin trial
    draws its witness as [2 + randint(1, n - 4)]: the witness lies in
    [[3, n - 2]], every integer of [[3, n - 2]] is drawn, from exactly one
    raw value of a full period [[0, n - 4)] of the entropy source; 2 is
    never drawn. *)
Theorem witness_interval (n : Z) :
  5 <= n ->
  (forall src c, exists a,
      pick_witness src n c = Ret (a, S c) /\ 3 <= a <= n - 2) /\
  (forall a, 3 <= a <= n - 2 ->
     exists raw, 0 <= raw < n - 4 /\
       (forall src c, src c = raw -> pick_witness src n c = Ret (a, S c)) /\
       (forall raw', 0 <= raw' < n - 4 ->
          (forall src c, src c = raw' -> pick_witness src n c = Ret (a, S c)) ->
          raw' = raw)) /\
  (forall src c c', pick_witness src n c <> Ret (2, c')).
Proof.
  intro Hn. repeat split.
  - intros src c. eexists. split; [now apply pick_witness_ret |].
    pose proof (Z.mod_pos_bound (src c) (n - 4) ltac:(lia)). lia.
  - intros a Ha. exists (a - 3). split; [lia |]. split.
    + intros src c Hraw. rewrite pick_witness_ret, Hraw by assumption.
      rewrite Z.mod_small by lia. do 2 f_equal. lia.
    + intros raw' Hr' Hdraw.
      specialize (Hdraw (fun _ => raw') O eq_refl).
      rewrite pick_witness_ret in Hdraw by assumption.
      cbv beta in Hdraw.
      assert (Heq : 3 + raw' mod (n - 4) = a) by congruence.
      rewrite Z.mod_small in Heq by lia. lia.
  - intros src c c'. rewrite pick_witness_ret by assumption.
    intro H.
    assert (Heq : 3 + src c mod (n - 4) = 2) by congruence.
    pose proof (Z.mod_pos_bound (src c) (n - 4) ltac:(lia)). lia.
Qed.

(** ** The primality oracle *)

(** C9.  [is_prime] answers [False] for every [n <= 1], [True] for 2 and
    3, [False] for every even [n > 2]; whatever the entropy source, the
    round count and the fuel, and without drawing from the source. *)
Theorem is_prime_certain (src : nat -> Z) (fuel : nat) (n k : Z) (c : nat) :
  (n <= 1 -> is_prime src fuel n k c = Ret (false, c)) /\
  (n = 2 \/ n = 3 -> is_prime src fuel n k c = Ret (true, c)) /\
  (2 < n -> n mod 2 = 0 -> is_prime src fuel n k c = Ret (false, c)).
Proof.
  unfold is_prime. repeat split.
  - intro H. destruct (Z.leb_spec n 1); [reflexivity | lia].
  - intros [-> | ->]; reflexivity.
  - intros Hn Heven.
    destruct (Z.leb_spec n 1); [lia |].
    destruct (Z.leb_spec n 3).
    + assert (n = 3) by lia. subst n. discriminate.
    + rewrite Heven. reflexivity.
Qed.

(** ** Safe-prime generation *)

Lemma gen_large_prime_loop_ret (src : nat -> Z) (fuel : nat) (n : nat) :
  forall c p c',
    ElGamal.gen_large_prime_loop src n fuel c = Ret (p, c') ->
    2 ^ 63 <= p <= 2 ^ 64 - 1 /\
    exists c1 c2,
      is_prime src fuel p 5 c1 = Ret (true, c2) /\
      is_prime src fuel ((p - 1) / 2) 5 c2 = Ret (true, c').
Proof.
  induction n as [| n IH]; intros c p c' H; [discriminate |].
  cbn [ElGamal.gen_large_prime_loop] in H.
  apply rbind_ret_inv in H. destruct H as (cand & c1 & Hdraw & H).
  apply randint_ret_inv in Hdraw. destruct Hdraw as [Hrange ->].
  apply rbind_ret_inv in H. destruct H as (ok & c2 & Hp & H).
  destruct ok; [| now apply IH in H].
  apply rbind_ret_inv in H. destruct H as (okq & c3 & Hq & H).
  destruct okq; [| now apply IH in H].
  unfold rret in H. injection H as <- <-.
  split; [lia |]. now exists (S c), c2.
Qed.

(** C7.  A value [p] that the ElGamal [gen_large_prime] returns lies in
    [[2^63, 2^64)], so has bit length 64, and on the draws made just
    before the return [is_prime] answered [True] for [p] and then for
    [q = (p - 1) / 2]. *)
Theorem gen_large_prime_safe (src : nat -> Z) (fuel : nat) (c : nat) (p : Z) (c' : nat) :
  ElGamal.gen_large_prime src fuel c = Ret (p, c') ->
  2 ^ 63 <= p < 2 ^ 64 /\ Z.log2 p = 63 /\
  exists c1 c2,
    is_prime src fuel p 5 c1 = Ret (true, c2) /\
    is_prime src fuel ((p - 1) / 2) 5 c2 = Ret (true, c').
Proof.
  intro H. apply gen_large_prime_loop_ret in H.
  destruct H as [Hrange Hpass].
  split; [lia |]. split; [apply Z.log2_unique; lia | exact Hpass].
Qed.


(** ** The digest is a non-negative integer *)

Lemma be_value_nonneg (width : Z) (l : list Z) :
  Forall (fun b => 0 <= b) l -> 0 <= Sha256.be_value width l.
Proof.
  unfold Sha256.be_value.
  assert (Hgen : forall acc, 0 <= acc -> Forall (fun b => 0 <= b) l ->
            0 <= fold_left (fun acc b => acc * 2 ^ width + b) l acc).
  { induction l as [| b l IH]; intros acc Hacc Hall; cbn [fold_left].
    - assumption.
    - inversion Hall as [| ? ? Hb Hl]; subst.
      apply IH; [| assumption].
      pose proof (Z.pow_nonneg 2 width ltac:(lia)). nia. }
  apply Hgen. lia.
Qed.

Lemma compress_nonneg (hs block : list Z) :
  Forall (fun b => 0 <= b) (Sha256.compress hs block).
Proof.
  unfold Sha256.compress. apply Forall_map, Forall_forall.
  intros x _. unfold Sha256.w32. apply Z.mod_pos_bound. lia.
Qed.

Lemma digest_words_nonneg (msg : list Z) :
  Forall (fun b => 0 <= b) (Sha256.digest_words msg).
Proof.
  unfold Sha256.digest_words.
  generalize (Sha256.chunks (List.length (Sha256.pad msg)) 64 (Sha256.pad msg)).
  intro blocks.
  assert (H0 : Forall (fun b => 0 <= b) Sha256.H0).
  { unfold Sha256.H0. apply Forall_map, Forall_forall.
    intros x _. unfold Sha256.w32. apply Z.mod_pos_bound. lia. }
  revert H0. generalize Sha256.H0.
  induction blocks as [| blk blocks IH]; intros hs Hhs; cbn [fold_left].
  - assumption.
  - apply IH, compress_nonneg.
Qed.

Lemma sha256_int_nonneg (m : string) : 0 <= Sha256.sha256_int m.
Proof. apply be_value_nonneg, digest_words_nonneg. Qed.

(** ** Signing *)

Lemma pick_k_ret (src : nat -> Z) (depth : nat) (p : Z) (n : nat) :
  forall c k k_inv c',
    ElGamal.pick_k src depth n p c = Ret ((k, k_inv), c') ->
    2 <= k <= p - 2 /\
    exists y, extended_gcd depth k (p - 1) = Ret (1, k_inv, y).
Proof.
  induction n as [| n IH]; intros c k k_inv c' H; [discriminate |].
  cbn [ElGamal.pick_k] in H.
  apply rbind_ret_inv in H. destruct H as (k0 & c1 & Hdraw & H).
  apply randint_ret_inv in Hdraw. destruct Hdraw as [Hrange ->].
  apply rbind_ret_inv in H. destruct H as ([[g0 kinv0] y0] & c2 & Hegcd & H).
  apply lift_ret_inv in Hegcd. destruct Hegcd as [Hegcd ->].
  destruct (Z.eqb_spec g0 1) as [-> | Hne]; [| now apply IH in H].
  unfold rret in H. injection H as <- <- <-.
  split; [assumption | now exists y0].
Qed.

(** What a returned signature is made of. *)
Lemma signmsg_ret (src : nat -> Z) (depth fuel : nat) (m : string) (p g x : Z)
    c r s c' :
  ElGamal.signmsg src depth fuel m p g x c = Ret ((r, s), c') ->
  exists k k_inv y,
    2 <= k <= p - 2 /\
    extended_gcd depth k (p - 1) = Ret (1, k_inv, y) /\
    r = g ^ k mod p /\
    s = (k_inv * (Sha256.sha256_int m - x * r)) mod (p - 1).
Proof.
  unfold ElGamal.signmsg. intro H.
  apply rbind_ret_inv in H. destruct H as ([k k_inv] & c1 & Hk & H).
  apply pick_k_ret in Hk. destruct Hk as [Hrange [y Hegcd]].
  apply rbind_ret_inv in H. destruct H as (r0 & c2 & Hr & H).
  apply lift_ret_inv in Hr. destruct Hr as [Hr ->].
  rewrite quick_pow_pos in Hr by lia.
  apply rbind_ret_inv in H. destruct H as (s0 & c3 & Hs & H).
  apply lift_ret_inv in Hs. destruct Hs as [Hs ->].
  rewrite py_mod_nz in Hs by lia.
  unfold rret in H.
  assert (r = r0 /\ s = s0) as [-> ->] by (split; congruence).
  exists k, k_inv, y.
  split; [assumption |]. split; [assumption |]. split; congruence.
Qed.

(** C8.  A signature [(r, s)] that [signmsg] returns has [0 <= r < p]
    and [0 <= s < p - 1]: [s] is the residue modulo [p - 1] of
    [k_inv * (H - x * r)], with [k_inv] the coefficient of [k] as
    [extended_gcd(k, p - 1)] hands it back, not reduced beforehand. *)
Theorem signature_range (src : nat -> Z) (depth fuel : nat) (m : string)
    (p g x : Z) (c : nat) (r s : Z) (c' : nat) :
  ElGamal.signmsg src depth fuel m p g x c = Ret ((r, s), c') ->
  0 <= r < p /\ 0 <= s < p - 1 /\
  exists k k_inv y,
    extended_gcd depth k (p - 1) = Ret (1, k_inv, y) /\
    s = (k_inv * (Sha256.sha256_int m - x * r)) mod (p - 1).
Proof.
  intro H. apply signmsg_ret in H.
  destruct H as (k & k_inv & y & Hk & Hegcd & Hr & Hs).
  split; [subst r; apply Z.mod_pos_bound; lia |].
  split; [subst s; apply Z.mod_pos_bound; lia |].
  now exists k, k_inv, y.
Qed.

(** ** Verification *)

Lemma verify_spec (m : string) (r s p g y : Z) :
  1 < p -> 0 <= r -> 0 <= s ->
  ElGamal.verify m r s p g y
  = Ret ((y ^ r * r ^ s) mod p =? g ^ Sha256.sha256_int m mod p).
Proof.
  intros Hp Hr Hs. unfold ElGamal.verify.
  pose proof (sha256_int_nonneg m).
  rewrite !quick_pow_mod by assumption. cbn [bind].
  rewrite py_mod_nz by lia. cbn [bind].
  now rewrite <- Z.mul_mod by lia.
Qed.

(** Powers of a unit modulo a prime depend on the exponent modulo
    [p - 1] only. *)
Lemma pow_exponent_cong (p g a b : Z) :
  Z.prime p -> g mod p <> 0 -> 0 <= a -> 0 <= b ->
  a mod (p - 1) = b mod (p - 1) ->
  g ^ a mod p = g ^ b mod p.
Proof.
  intros Hp Hg Ha Hb Hab.
  pose proof (Z.prime_ge_2 p Hp).
  assert (Hred : forall e, 0 <= e -> g ^ e mod p = g ^ (e mod (p - 1)) mod p).
  { intros e He.
    pose proof (Z.mod_pos_bound e (p - 1) ltac:(lia)).
    assert (0 <= e / (p - 1)) by (apply Z.div_pos; lia).
    rewrite (Z.div_mod e (p - 1)) at 1 by lia.
    rewrite Z.pow_add_r by nia.
    rewrite <- Z.mul_mod_idemp_l, pow_fermat_cycle by (auto; lia).
    now rewrite Z.mul_1_l. }
  now rewrite (Hred a), (Hred b), Hab.
Qed.

Lemma signature_equation (p g x k k_inv y H : Z) :
  Z.prime p -> g mod p <> 0 -> 0 <= x -> 0 <= k -> 0 <= H ->
  k * k_inv + (p - 1) * y = 1 ->
  let r := g ^ k mod p in
  let s := (k_inv * (H - x * r)) mod (p - 1) in
  ((g ^ x mod p) ^ r * r ^ s) mod p = g ^ H mod p.
Proof.
  intros Hp Hg Hx Hk HH Hbez r s.
  pose proof (Z.prime_ge_2 p Hp).
  assert (Hr : 0 <= r) by (apply Z.mod_pos_bound; lia).
  assert (Hs : 0 <= s) by (apply Z.mod_pos_bound; lia).
  rewrite Z.mul_mod by lia.
  unfold r at 2.
  rewrite !Z.mod_pow_l.
  rewrite <- Z.mul_mod by lia.
  rewrite <- !Z.pow_mul_r, <- Z.pow_add_r by nia.
  apply pow_exponent_cong; try assumption; [nia |].
  unfold s.
  rewrite Z.add_mod, Z.mul_mod_idemp_r, <- Z.add_mod by lia.
  replace (x * r + k * (k_inv * (H - x * r)))
    with (H + (- y * (H - x * r)) * (p - 1)) by nia.
  apply Z.mod_add. lia.
Qed.


(** Primality of a small number, by trial division. *)
Lemma prime_by_trial (p : Z) :
  1 < p ->
  forallb (fun n => negb (p mod n =? 0)) (map Z.of_nat (seq 2 (Z.to_nat p - 2))) = true ->
  Z.prime p.
Proof.
  intros Hp Htrial. split; [assumption |].
  intros n Hn Hdiv.
  rewrite forallb_forall in Htrial.
  assert (Hin : In n (map Z.of_nat (seq 2 (Z.to_nat p - 2)))).
  { apply in_map_iff. exists (Z.to_nat n). split; [lia |].
    apply in_seq. lia. }
  apply Htrial in Hin.
  apply Z.mod_divide in Hdiv; [| lia].
  rewrite Hdiv in Hin. discriminate.
Qed.

(** C2, as the code has it.  With [p] a safe prime, [g] not divisible by
    [p] and such that [g^2 mod p != 1] and [g^((p-1)/2) mod p != 1],
    [1 < x < p - 1] and [y = g^x mod p]: every pair [(r, s)] that
    [signmsg(m, p, g, x)] returns, whatever [k] it settled on, makes
    [verify(m, r, s, p, g, y)] return [True]; and [verify] answers by
    comparing [y^r * r^s mod p] with [g^H mod p]. *)
Theorem signmsg_verifies (src : nat -> Z) (depth fuel : nat) (c : nat)
    (m : string) (p g x y r s : Z) (c' : nat) :
  Z.prime p -> Z.prime ((p - 1) / 2) ->
  g mod p <> 0 ->
  g ^ 2 mod p <> 1 -> g ^ ((p - 1) / 2) mod p <> 1 ->
  1 < x < p - 1 ->
  y = g ^ x mod p ->
  ElGamal.signmsg src depth fuel m p g x c = Ret ((r, s), c') ->
  ElGamal.verify m r s p g y = Ret true /\
  (forall r' s', 0 <= r' -> 0 <= s' ->
     ElGamal.verify m r' s' p g y
     = Ret ((y ^ r' * r' ^ s') mod p =? g ^ Sha256.sha256_int m mod p)).
Proof.
  intros Hp Hq Hg _ _ Hx -> Hsign.
  pose proof (Z.prime_ge_2 p Hp).
  split; [| intros r' s' Hr' Hs'; apply verify_spec; lia].
  apply signmsg_ret in Hsign.
  destruct Hsign as (k & k_inv & yy & Hk & Hegcd & -> & ->).
  apply extended_gcd_bezout in Hegcd.
  rewrite verify_spec by (try apply Z.mod_pos_bound; lia).
  f_equal. apply Z.eqb_eq.
  apply signature_equation with (y := yy); try assumption; try lia.
  apply sha256_int_nonneg.
Qed.


(** ** Generator discovery *)

Lemma generator_test_spec (g q p : Z) :
  1 < p -> 0 <= q ->
  ElGamal.generator_test g q p
  = Ret (negb (g ^ 2 mod p =? 1) && negb (g ^ q mod p =? 1)).
Proof.
  intros Hp Hq. unfold ElGamal.generator_test.
  rewrite quick_pow_mod by lia. cbn [bind].
  destruct (g ^ 2 mod p =? 1); cbn [negb andb]; [reflexivity |].
  rewrite quick_pow_mod by lia. reflexivity.
Qed.

Lemma generator_test_true (g q p : Z) :
  1 < p -> 0 <= q ->
  (ElGamal.generator_test g q p = Ret true
   <-> g ^ 2 mod p <> 1 /\ g ^ q mod p <> 1).
Proof.
  intros Hp Hq. rewrite generator_test_spec by assumption.
  destruct (Z.eqb_spec (g ^ 2 mod p) 1), (Z.eqb_spec (g ^ q mod p) 1);
    cbn; split; intro H; try discriminate; try tauto; try reflexivity.
Qed.

Lemma generator_test_total (g q p : Z) :
  1 < p -> 0 <= q ->
  exists b, ElGamal.generator_test g q p = Ret b.
Proof. intros. rewrite generator_test_spec by assumption. eauto. Qed.

Lemma find_generator_from_step (n : nat) (g q p : Z) (ok : bool) :
  ElGamal.generator_test g q p = Ret ok ->
  ElGamal.find_generator_from (S n) g q p
  = if ok then Ret (Some g) else ElGamal.find_generator_from n (g + 1) q p.
Proof. intro H. cbn [ElGamal.find_generator_from]. rewrite H. reflexivity. Qed.



(** ** A safe prime has a generator in [[2, p)] *)

Lemma prime_odd (p : Z) : Z.prime p -> 2 < p -> p mod 2 = 1.
Proof.
  intros [_ Hp] Hgt.
  pose proof (Z.mod_pos_bound p 2 ltac:(lia)).
  destruct (Z.eq_dec (p mod 2) 0) as [H0 | H1]; [| lia].
  exfalso. apply (Hp 2); [lia |].
  apply Z.mod_divide; [lia | assumption].
Qed.






(** X25.  For every base [m], exponent [e >= 0] and modulus [n >= 1],
    [quick_pow(m, e, n)] returns: 1 when [e = 0], whatever [m] and [n]
    are, and [m^e mod n] when [e > 0] or [n > 1]; the loop gives that
    same answer under any larger amount of fuel. *)
Theorem quick_pow_contract (m e n : Z) :
  0 <= e -> 0 < n ->
  (e = 0 -> quick_pow m e n = Ret 1) /\
  (0 < e \/ 1 < n -> quick_pow m e n = Ret (m ^ e mod n)) /\
  (forall fuel, (bit_length e <= fuel)%nat ->
                quick_pow_loop fuel 1 m e n = quick_pow m e n).
Proof.
  intros He Hn. repeat split.
  - intros ->. reflexivity.
  - intros [Hpos | Hbig]; [apply quick_pow_pos | apply quick_pow_mod]; lia.
  - intros fuel Hfuel. now apply quick_pow_loop_enough.
Qed.

(** C6, as the code has it.  For non-negative [a] and [b],
    [extended_gcd(a, b)] either returns or raises [RecursionError], one
    frame of the interpreter being taken by every step of the remainder
    sequence; a triple [(g, x, y)] that it returns has [g = gcd(a, b)]
    and [a*x + b*y = g]; and it does return when two frames for every
    bit of [b], and three, are left. *)
Theorem extended_gcd_correct (depth : nat) (a b : Z) :
  0 <= a -> 0 <= b ->
  ((exists g x y,
       extended_gcd depth a b = Ret (g, x, y) /\
       g = Z.gcd a b /\ a * x + b * y = g) \/
   extended_gcd depth a b = Raise RecursionError) /\
  ((enough_frames b <= depth)%nat ->
   exists g x y,
     extended_gcd depth a b = Ret (g, x, y) /\
     g = Z.gcd a b /\ a * x + b * y = g).
Proof.
  intros Ha Hb.
  assert (Hret : forall t, extended_gcd depth a b = Ret t ->
                 exists g x y,
                   extended_gcd depth a b = Ret (g, x, y) /\
                   g = Z.gcd a b /\ a * x + b * y = g).
  { intros [[g x] y] Heq. exists g, x, y. split; [assumption |]. split.
    - apply (extended_gcd_is_gcd depth a b g x y); auto.
    - now apply (extended_gcd_bezout depth). }
  split.
  - destruct (extended_gcd_outcome depth a b) as [[t Ht] | Hno];
      [left; now apply (Hret t) | now right].
  - intro Hdepth.
    destruct (extended_gcd_returns depth a b Hdepth) as [t Ht].
    now apply (Hret t).
Qed.



(** ** Keys made by [key_gen] *)

Lemma probe_ret (src : nat -> Z) (fuel : nat) (n : nat) :
  forall start c p c',
    RSA.probe src n fuel start c = Ret (p, c') -> start <= p.
Proof.
  induction n as [| n IH]; intros start c p c' H; [discriminate |].
  cbn [RSA.probe] in H.
  apply rbind_ret_inv in H. destruct H as (ok & c1 & _ & H).
  destruct ok.
  - unfold rret in H. injection H as <- _. lia.
  - apply IH in H. lia.
Qed.

Lemma rsa_gen_large_prime_ret (src : nat -> Z) (fuel : nat) c p c' :
  RSA.gen_large_prime src fuel c = Ret (p, c') -> 2 ^ 1023 <= p.
Proof.
  unfold RSA.gen_large_prime. intro H.
  apply rbind_ret_inv in H. destruct H as (start & c1 & Hdraw & H).
  apply randint_ret_inv in Hdraw. apply probe_ret in H. lia.
Qed.

(** The exponents of a generated key pair: [e] is 65537, [d] lies in
    [[0, phi_n)] and inverts [e] modulo [phi_n]. *)
Lemma key_gen_exponents (src : nat -> Z) (depth fuel : nat)
    c p q n phi_n e d c' :
  RSA.key_gen src depth fuel c = Ret ((p, q, n, phi_n, e, d), c') ->
  n = p * q /\ phi_n = (p - 1) * (q - 1) /\ e = 65537 /\
  0 <= d < phi_n /\ (e * d) mod phi_n = 1.
Proof.
  unfold RSA.key_gen. intro H.
  apply rbind_ret_inv in H. destruct H as (p0 & c1 & Hp & H).
  apply rbind_ret_inv in H. destruct H as (q0 & c2 & Hq & H).
  apply rbind_ret_inv in H. destruct H as (d0 & c3 & Hd & H).
  apply lift_ret_inv in Hd. destruct Hd as [Hd ->].
  unfold rret in H.
  assert (Hp0 : p0 = p) by congruence. assert (Hq0 : q0 = q) by congruence.
  assert (Hn : n = p0 * q0) by congruence.
  assert (Hphi : phi_n = (p0 - 1) * (q0 - 1)) by congruence.
  assert (He : e = 65537) by congruence. assert (Hd0 : d0 = d) by congruence.
  subst p0 q0 d0.
  apply rsa_gen_large_prime_ret in Hp. apply rsa_gen_large_prime_ret in Hq.
  assert (Hbig : 2 <= 2 ^ 1023) by (apply (Z.pow_le_mono_r 2 1 1023); lia).
  assert (Hphi1 : 1 < phi_n) by (subst phi_n; nia).
  rewrite <- Hphi in Hd.
  apply mod_inverse_ret_inv in Hd; [| lia].
  destruct Hd as (_ & Hrange & Hinv). specialize (Hinv Hphi1).
  subst e. auto.
Qed.

(** * Concrete runs *)

(** The textbook key [p = 61], [q = 53], [e = 17], [d = 2753]. *)
Lemma rsa_round_trip_witness :
  exists ciphertext_list,
    RSA.rsa_encrypt [65] 17 3233 = Ret ciphertext_list /\
    RSA.rsa_decrypt ciphertext_list 2753 3233 = Ret [65].
Proof.
  refine (rsa_round_trip 61 53 3233 17 2753 [65] _ _ _ _ _ _ _ _).
  - apply prime_by_trial; [reflexivity | vm_compute; reflexivity].
  - apply prime_by_trial; [reflexivity | vm_compute; reflexivity].
  - lia.
  - reflexivity.
  - lia.
  - lia.
  - reflexivity.
  - repeat constructor; lia.
Defined.

Example rsa_textbook_ciphertext : RSA.rsa_encrypt [65] 17 3233 = Ret [2790].
Proof. vm_compute. reflexivity. Qed.

(** On a negative exponent [rsa_encrypt] does not return. *)
Example rsa_encrypt_negative_exponent (fuel : nat) :
  quick_pow_loop fuel 1 2 (-1) 6 = OutOfFuel.
Proof. apply quick_pow_loop_negative; lia. Qed.

(** C1 as stated fails for a negative exponent: with [p = 61],
    [q = 53], [e = 17] and [d = -367], [(e * d) % 3120 == 1] holds, and
    [rsa_decrypt] of the ciphertext of 65 does not return: the loop of
    [quick_pow] does not end, however many iterations it is given. *)
Lemma rsa_round_trip_negative_exponent :
  Z.prime 61 /\ Z.prime 53 /\ 61 <> 53 /\
  (17 * -367) mod ((61 - 1) * (53 - 1)) = 1 /\
  0 <= 65 < 61 * 53 /\
  RSA.rsa_encrypt [65] 17 (61 * 53) = Ret [2790] /\
  RSA.rsa_decrypt [2790] (-367) (61 * 53) = OutOfFuel /\
  (forall fuel, quick_pow_loop fuel 1 2790 (-367) (61 * 53) = OutOfFuel).
Proof.
  split; [apply prime_by_trial; [reflexivity | vm_compute; reflexivity] |].
  split; [apply prime_by_trial; [reflexivity | vm_compute; reflexivity] |].
  split; [discriminate |]. split; [reflexivity |]. split; [lia |].
  split; [vm_compute; reflexivity |].
  split; [vm_compute; reflexivity |].
  intro fuel. apply quick_pow_loop_negative; lia.
Qed.

(** C2 as stated fails for [g = 0]: with the safe prime [p = 5],
    [x = 2], [y = 0^2 mod 5 = 0] and the draw [k = 3], [signmsg] returns
    [(0, 0)] for the message ["test"], and [verify] answers [False]. *)
Lemma signmsg_zero_generator_rejected :
  Z.prime 5 /\ Z.prime ((5 - 1) / 2) /\
  0 ^ 2 mod 5 <> 1 /\ 0 ^ ((5 - 1) / 2) mod 5 <> 1 /\
  1 < 2 < 5 - 1 /\ 0 = 0 ^ 2 mod 5 /\
  1 < 3 < 5 - 1 /\ Z.gcd 3 (5 - 1) = 1 /\
  ElGamal.pick_k (fun _ => 1) 100 1 5 0%nat = Ret ((3, -1), 1%nat) /\
  ElGamal.signmsg (fun _ => 1) 100 1 "test"%string 5 0 2 0%nat = Ret ((0, 0), 1%nat) /\
  ElGamal.verify "test"%string 0 0 5 0 0 = Ret false.
Proof.
  split; [apply prime_by_trial; [reflexivity | vm_compute; reflexivity] |].
  split; [apply prime_by_trial; [reflexivity | vm_compute; reflexivity] |].
  split; [discriminate |]. split; [discriminate |].
  split; [lia |]. split; [reflexivity |].
  split; [lia |]. split; [reflexivity |].
  split; [vm_compute; reflexivity |].
  split; vm_compute; reflexivity.
Qed.

(** The test vector [p = 23], [g = 5], [x = 6], [y = 8]. *)
Lemma signmsg_verifies_witness :
  ElGamal.signmsg (fun _ => 1) 100 1 "test"%string 23 5 6 0%nat = Ret ((10, 6), 1%nat) /\
  ElGamal.verify "test"%string 10 6 23 5 8 = Ret true.
Proof.
  split; [vm_compute; reflexivity |].
  refine (proj1 (signmsg_verifies (fun _ => 1) 100 1 0 "test"%string
                   23 5 6 8 10 6 1 _ _ _ _ _ _ _ _)).
  - apply prime_by_trial; [reflexivity | vm_compute; reflexivity].
  - apply prime_by_trial; [reflexivity | vm_compute; reflexivity].
  - discriminate.
  - discriminate.
  - discriminate.
  - lia.
  - reflexivity.
  - vm_compute. reflexivity.
Defined.


Example mod_inverse_textbook : mod_inverse 100 17 3120 = Ret 2753.
Proof. vm_compute. reflexivity. Qed.

Example mod_inverse_not_coprime : mod_inverse 100 6 9 = Raise ValueError.
Proof. vm_compute. reflexivity. Qed.


(** C4 as stated fails: for [n = 5] the interval [[2, n - 2]] holds 2,
    which no draw produces. *)
Lemma witness_two_never_drawn :
  5 <= 5 /\ 5 mod 2 = 1 /\ 2 <= 2 <= 5 - 2 /\
  ~ (exists src c c', pick_witness src 5 c = Ret (2, c')).
Proof.
  split; [lia |]. split; [reflexivity |]. split; [lia |].
  intros (src & c & c' & H). unfold pick_witness, rbind, randint, rret in H.
  cbn in H. rewrite Z.mod_1_r in H. discriminate.
Qed.

Lemma witness_interval_witness :
  exists a,
    pick_witness (fun _ => 8) 7 0%nat = Ret (a, 1%nat) /\ 3 <= a <= 7 - 2.
Proof.
  refine (proj1 (witness_interval 7 _) (fun _ => 8) 0%nat). lia.
Defined.

Example witness_drawn_on_8 : pick_witness (fun _ => 8) 7 0%nat = Ret (5, 1%nat).
Proof. reflexivity. Qed.

(** C5.  The code at [m = 7], [e = 0], [n = 1], inside the domain of
    the claim: [quick_pow] returns 1 where [m^e mod n] is 0.  [ans = 1]
    is reduced modulo [n] inside the loop only, and the loop does not
    run for [e = 0]; on a positive exponent the same function does
    return 0 for the modulus 1. *)
Theorem quick_pow_modulus_one :
  0 <= 0 /\ 0 < 1 /\
  quick_pow 7 0 1 = Ret 1 /\ 7 ^ 0 mod 1 = 0 /\
  quick_pow 7 0 1 <> Ret (7 ^ 0 mod 1) /\
  quick_pow 7 5 1 = Ret 0.
Proof.
  split; [lia |]. split; [lia |]. split; [reflexivity |].
  split; [reflexivity |]. split; [discriminate | reflexivity].
Qed.

Lemma quick_pow_contract_witness :
  quick_pow 4 13 497 = Ret (4 ^ 13 mod 497) /\ quick_pow 4 0 497 = Ret 1.
Proof.
  split.
  - refine (proj1 (proj2 (quick_pow_contract 4 13 497 _ _)) _); lia.
  - refine (proj1 (quick_pow_contract 4 0 497 _ _) _); lia.
Defined.

Example quick_pow_textbook : quick_pow 4 13 497 = Ret 445.
Proof. vm_compute. reflexivity. Qed.

(** A negative exponent: the first iteration raises on the modulus 0,
    and on another modulus the loop does not end. *)
Example quick_pow_negative_exponent :
  quick_pow 2 (-1) 0 = Raise ZeroDivisionError /\
  quick_pow 2 (-1) 5 = OutOfFuel.
Proof. split; reflexivity. Qed.

Lemma extended_gcd_correct_witness :
  exists g x y,
    extended_gcd 100 240 46 = Ret (g, x, y) /\
    g = Z.gcd 240 46 /\ 240 * x + 46 * y = g.
Proof.
  refine (proj2 (extended_gcd_correct 100 240 46 _ _) _);
    [lia | lia | vm_compute; lia].
Defined.

Example extended_gcd_textbook : extended_gcd 100 240 46 = Ret (2, -9, 47).
Proof. vm_compute. reflexivity. Qed.

(** C6 as stated fails on large inputs: [extended_gcd] of the
    Fibonacci numbers [fib 1500] and [fib 1499], of 1041 and 1040 bits,
    nests 1499 calls, more than the 1000 frames of the interpreter. *)
Lemma extended_gcd_recursion_limit :
  0 <= fib 1500 /\ 0 <= fib 1499 /\
  Z.log2 (fib 1500) = 1040 /\
  extended_gcd 1000 (fib 1500) (fib 1499) = Raise RecursionError.
Proof.
  split; [apply fib_positive |]. split; [apply fib_positive |].
  split; [vm_compute; reflexivity |].
  apply (extended_gcd_fib_deep 1497 1000). lia.
Qed.

(** A source whose first draw lands on the safe prime
    [2^63 + 2679]; every witness drawn afterwards is 3. *)
Lemma gen_large_prime_safe_witness :
  2 ^ 63 <= 9223372036854778487 < 2 ^ 64 /\
  Z.log2 9223372036854778487 = 63 /\
  exists c1 c2,
    is_prime (fun c => match c with O => 2679 | _ => 0 end) 64
             9223372036854778487 5 c1 = Ret (true, c2) /\
    is_prime (fun c => match c with O => 2679 | _ => 0 end) 64
             ((9223372036854778487 - 1) / 2) 5 c2 = Ret (true, 11%nat).
Proof.
  refine (gen_large_prime_safe (fun c => match c with O => 2679 | _ => 0 end)
            64 0 9223372036854778487 11 _).
  vm_compute. reflexivity.
Defined.

Lemma signature_range_witness :
  0 <= 10 < 23 /\ 0 <= 6 < 23 - 1 /\
  exists k k_inv y,
    extended_gcd 100 k (23 - 1) = Ret (1, k_inv, y) /\
    6 = (k_inv * (Sha256.sha256_int "test"%string - 6 * 10)) mod (23 - 1).
Proof.
  refine (signature_range (fun _ => 1) 100 1 "test"%string 23 5 6 0 10 6 1 _).
  vm_compute. reflexivity.
Defined.

(** The coefficient that [extended_gcd] hands back may be negative, and
    so may [H - x * r]; the signature is in range all the same. *)
Example signmsg_negative_intermediates :
  extended_gcd 100 3 (23 - 1) = Ret (1, -7, 1) /\
  Sha256.sha256_int "test"%string - 2 ^ 256 * 10 < 0 /\
  ElGamal.signmsg (fun _ => 1) 100 1 "test"%string 23 5 (2 ^ 256) 0%nat
  = Ret ((10, 18), 1%nat).
Proof.
  split; [vm_compute; reflexivity |].
  split; vm_compute; reflexivity.
Qed.

Lemma is_prime_certain_witness :
  is_prime (fun _ => 0) 0 (-7) 5 0%nat = Ret (false, 0%nat) /\
  is_prime (fun _ => 0) 0 2 5 0%nat = Ret (true, 0%nat) /\
  is_prime (fun _ => 0) 0 3 5 0%nat = Ret (true, 0%nat) /\
  is_prime (fun _ => 0) 0 100 5 0%nat = Ret (false, 0%nat).
Proof.
  split; [refine (proj1 (is_prime_certain (fun _ => 0) 0 (-7) 5 0) _); lia |].
  split; [refine (proj1 (proj2 (is_prime_certain (fun _ => 0) 0 2 5 0)) _); lia |].
  split; [refine (proj1 (proj2 (is_prime_certain (fun _ => 0) 0 3 5 0)) _); lia |].
  refine (proj2 (proj2 (is_prime_certain (fun _ => 0) 0 100 5 0)) _ _);
    [lia | reflexivity].
Defined.


Example find_generator_23 : ElGamal.find_generator 23 = Ret (Some 5).
Proof. vm_compute. reflexivity. Qed.

(** * Further properties *)

(** ** The odd part of [n - 1] *)

Lemma odd_part_ret_inv (fuel : nat) :
  forall d r, odd_part fuel d = Ret r ->
              r mod 2 = 1 /\ exists s, 0 <= s /\ d = r * 2 ^ s.
Proof.
  induction fuel as [| fuel IH]; intros d r H; cbn [odd_part] in H;
    pose proof (Z.mod_pos_bound d 2 ltac:(lia)) as Hbit;
    destruct (Z.eqb_spec (d mod 2) 0) as [Heven | Hodd]; cbn [negb] in H;
    try discriminate.
  - injection H as <-. split; [lia |]. exists 0. split; [lia |]. cbn. lia.
  - apply IH in H. destruct H as [Hr (s & Hs & Hd)].
    split; [assumption |]. exists (s + 1). split; [lia |].
    rewrite Z.pow_add_r, Z.pow_1_r by lia.
    pose proof (Z.div_mod d 2 ltac:(lia)). lia.
  - injection H as <-. split; [lia |]. exists 0. split; [lia |]. cbn. lia.
Qed.

Lemma odd_part_returns (fuel : nat) :
  forall d, 0 < d -> Z.log2 d <= Z.of_nat fuel ->
            exists r, odd_part fuel d = Ret r.
Proof.
  induction fuel as [| fuel IH]; intros d Hd Hfuel; cbn [odd_part];
    pose proof (Z.mod_pos_bound d 2 ltac:(lia)) as Hbit;
    destruct (Z.eqb_spec (d mod 2) 0) as [Heven | Hodd]; cbn [negb];
    try (now exists d).
  - exfalso.
    assert (2 <= d) by (pose proof (Z.div_mod d 2 ltac:(lia)); lia).
    pose proof (Z.log2_le_mono 2 d ltac:(lia)) as Hl.
    change (Z.log2 2) with 1 in Hl. lia.
  - assert (Hge : 2 <= d) by (pose proof (Z.div_mod d 2 ltac:(lia)); lia).
    apply IH.
    + apply Z.div_str_pos. lia.
    + rewrite <- shiftr_1_div2, Z.log2_shiftr by lia.
      pose proof (Z.log2_le_mono 2 d ltac:(lia)) as Hl.
      change (Z.log2 2) with 1 in Hl. lia.
Qed.

(** X4.  For [d > 0] and [fuel >= log2 d] the halving loop of
    [is_prime] returns the odd part of [d]: an odd [r > 0] with
    [d = r * 2^s]. *)
Theorem odd_part_factor (fuel : nat) (d : Z) :
  0 < d -> Z.log2 d <= Z.of_nat fuel ->
  exists r s,
    odd_part fuel d = Ret r /\
    0 < r /\ r mod 2 = 1 /\ 0 <= s /\ d = r * 2 ^ s.
Proof.
  intros Hd Hfuel.
  destruct (odd_part_returns fuel d Hd Hfuel) as [r Hr].
  destruct (odd_part_ret_inv fuel d r Hr) as [Hodd (s & Hs & Heq)].
  exists r, s. repeat (split; [assumption |]). 
  split; [| auto].
  pose proof (Z.pow_pos_nonneg 2 s ltac:(lia) Hs). nia.
Qed.

(** On 0 the halving loop never ends. *)
Lemma odd_part_zero (fuel : nat) : odd_part fuel 0 = OutOfFuel.
Proof. induction fuel as [| fuel IH]; cbn [odd_part]; [reflexivity | exact IH]. Qed.

(** ** Miller-Rabin on a prime *)

(** Modulo a prime, 1 has the square roots 1 and [n - 1] only. *)
Lemma sqrt_one_mod_prime (n x : Z) :
  Z.prime n -> 0 <= x < n -> (x * x) mod n = 1 -> x = 1 \/ x = n - 1.
Proof.
  intros Hn Hx Hsq.
  pose proof (Z.prime_ge_2 n Hn).
  assert (Hdiv : (n | (x - 1) * (x + 1))).
  { apply Z.mod_divide; [lia |].
    replace ((x - 1) * (x + 1)) with (x * x - 1) by ring.
    rewrite Zminus_mod, Hsq, Z.mod_1_l by lia. reflexivity. }
  apply Z.divide_prime_mul in Hdiv; [| assumption].
  destruct Hdiv as [[t Ht] | [t Ht]].
  - left. assert (t = 0) by nia. lia.
  - right. assert (t = 1) by nia. lia.
Qed.

(** The squaring loop, started below the top on a value that is neither
    1 nor [n - 1] and whose [2^t]-th power is 1: it says [True], unless
    the fuel gives out first. *)
Lemma mr_loop_prime (n : Z) (t : nat) :
  Z.prime n ->
  forall fuel x d,
    0 <= x < n -> x <> 1 -> x <> n - 1 ->
    0 < d -> d * 2 ^ Z.of_nat t = n - 1 ->
    x ^ (2 ^ Z.of_nat t) mod n = 1 ->
    mr_loop fuel x d n = Ret true \/
    (mr_loop fuel x d n = OutOfFuel /\ (fuel < t)%nat).
Proof.
  intros Hn. pose proof (Z.prime_ge_2 n Hn) as Hn2.
  induction t as [| t IH]; intros fuel x d Hx Hx1 Hxm Hd Hdt Hpow.
  - exfalso. change (2 ^ Z.of_nat 0) with 1 in Hpow.
    rewrite Z.pow_1_r, Z.mod_small in Hpow by lia. lia.
  - assert (Hpos : 0 < 2 ^ Z.of_nat t) by (apply Z.pow_pos_nonneg; lia).
    assert (H2 : 2 ^ Z.of_nat (S t) = 2 * 2 ^ Z.of_nat t).
    { rewrite Nat2Z.inj_succ, Z.pow_succ_r by lia. reflexivity. }
    rewrite H2 in Hdt, Hpow.
    destruct fuel as [| fuel]; cbn [mr_loop];
      (destruct (Z.eqb_spec d (n - 1)) as [Heq | Hne]; [nia |]).
    + right. split; [reflexivity | lia].
    + rewrite py_mod_nz by lia. cbn [bind].
      pose proof (Z.mod_pos_bound (x * x) n ltac:(lia)) as Hx'.
      destruct (Z.eqb_spec ((x * x) mod n) 1) as [Hone | Hnone].
      { exfalso. destruct (sqrt_one_mod_prime n x Hn Hx Hone); lia. }
      destruct (Z.eqb_spec ((x * x) mod n) (n - 1)) as [Hm | Hnm];
        [now left |].
      destruct (IH fuel ((x * x) mod n) (d * 2)) as [Ht | [Ho Hlt]];
        try assumption; try lia.
      * rewrite Z.mod_pow_l. rewrite <- Z.pow_2_r, <- Z.pow_mul_r by lia.
        exact Hpow.
      * now left.
      * right. split; [assumption | lia].
Qed.

(** One trial on [n >= 5] with [d > 0], once the witness is drawn. *)
Lemma miller_rabin_drawn (src : nat -> Z) (fuel : nat) (n d : Z) (c : nat) :
  5 <= n -> 0 < d ->
  _miller_rabin_test src fuel d n c =
  let a := 3 + src c mod (n - 4) in
  let x := a ^ d mod n in
  if (x =? 1) || (x =? n - 1) then Ret (true, S c)
  else lift (mr_loop fuel x d n) (S c).
Proof.
  intros H5 Hd. unfold _miller_rabin_test, rbind.
  rewrite pick_witness_ret by assumption.
  unfold lift at 1. rewrite quick_pow_pos by lia. cbv zeta.
  destruct ((_ =? 1) || _); reflexivity.
Qed.

(** One trial on a prime [n >= 5], with [d] the odd part of [n - 1]. *)
Lemma miller_rabin_prime (src : nat -> Z) (fuel : nat) (n d : Z) (t : nat) (c : nat) :
  Z.prime n -> 5 <= n -> 0 < d -> d * 2 ^ Z.of_nat t = n - 1 ->
  _miller_rabin_test src fuel d n c = Ret (true, S c) \/
  (_miller_rabin_test src fuel d n c = OutOfFuel /\ (fuel < t)%nat).
Proof.
  intros Hn H5 Hd Hdt.
  rewrite miller_rabin_drawn by assumption. cbv zeta.
  pose proof (Z.mod_pos_bound (src c) (n - 4) ltac:(lia)) as Hraw.
  remember (3 + src c mod (n - 4)) as a eqn:Ea.
  pose proof (Z.mod_pos_bound (a ^ d) n ltac:(lia)) as Hx.
  destruct (Z.eqb_spec (a ^ d mod n) 1) as [H1 | H1]; [now left |].
  destruct (Z.eqb_spec (a ^ d mod n) (n - 1)) as [Hm | Hm]; [now left |].
  cbn [orb].
  assert (Ha : a mod n <> 0) by (rewrite Z.mod_small by lia; lia).
  assert (Hpos : 0 < 2 ^ Z.of_nat t) by (apply Z.pow_pos_nonneg; lia).
  destruct (mr_loop_prime n t Hn fuel (a ^ d mod n) d) as [Ht | [Ho Hlt]];
    try assumption.
  - rewrite Z.mod_pow_l, <- Z.pow_mul_r, Hdt by lia.
    now apply Z.fermat_nz.
  - left. unfold lift. rewrite Ht. reflexivity.
  - right. unfold lift. rewrite Ho. split; [reflexivity | assumption].
Qed.

Lemma mr_rounds_prime (src : nat -> Z) (fuel : nat) (n d : Z) (t : nat) (k : nat) :
  Z.prime n -> 5 <= n -> 0 < d -> d * 2 ^ Z.of_nat t = n - 1 ->
  forall c,
    mr_rounds src fuel k d n c = Ret (true, (c + k)%nat) \/
    (mr_rounds src fuel k d n c = OutOfFuel /\ (fuel < t)%nat).
Proof.
  intros Hn H5 Hd Hdt.
  induction k as [| k IH]; intro c; cbn [mr_rounds].
  - left. unfold rret. f_equal. f_equal. lia.
  - unfold rbind.
    destruct (miller_rabin_prime src fuel n d t c Hn H5 Hd Hdt) as [Ht | [Ho Hlt]].
    + rewrite Ht. cbn [negb].
      destruct (IH (S c)) as [Ht' | [Ho' Hlt']].
      * left. rewrite Ht'. f_equal. f_equal. lia.
      * right. now split.
    + right. rewrite Ho. now split.
Qed.

(** The shape of [n - 1] that [is_prime] works with. *)
Lemma odd_part_of_pred (fuel : nat) (n d : Z) :
  5 <= n -> odd_part fuel (n - 1) = Ret d ->
  0 < d /\ exists t : nat, d * 2 ^ Z.of_nat t = n - 1 /\ Z.of_nat t <= Z.log2 n.
Proof.
  intros H5 Hd. apply odd_part_ret_inv in Hd.
  destruct Hd as [Hodd (s & Hs & Heq)].
  assert (Hpos : 0 < 2 ^ s) by (apply Z.pow_pos_nonneg; lia).
  assert (Hdpos : 0 < d) by nia.
  split; [assumption |].
  exists (Z.to_nat s). rewrite Z2Nat.id by assumption.
  split; [lia |].
  apply Z.log2_le_pow2; [lia |]. nia.
Qed.

Lemma prime_ge_5 (n : Z) : Z.prime n -> 3 < n -> 5 <= n /\ n mod 2 = 1.
Proof.
  intros Hn H3. pose proof (prime_odd n Hn ltac:(lia)) as Hodd.
  split; [| assumption].
  destruct (Z.eq_dec n 4) as [-> | Hne]; [discriminate | lia].
Qed.

Lemma is_prime_odd_unfold (src : nat -> Z) (fuel : nat) (n k : Z) (c : nat) :
  5 <= n -> n mod 2 = 1 ->
  is_prime src fuel n k c =
  rbind (lift (odd_part fuel (n - 1)))
        (fun d => mr_rounds src fuel (Z.to_nat k) d n) c.
Proof.
  intros H5 Hodd. unfold is_prime.
  destruct (Z.leb_spec n 1); [lia |].
  destruct (Z.leb_spec n 3); [lia |].
  rewrite Hodd. reflexivity.
Qed.

(** On a prime, [is_prime] says [True] once the fuel covers the bits of
    [n]. *)
Lemma is_prime_prime_true (src : nat -> Z) (fuel : nat) (n k : Z) (c : nat) :
  Z.prime n -> Z.log2 n <= Z.of_nat fuel ->
  is_prime src fuel n k c
  = Ret (true, if n <=? 3 then c else (c + Z.to_nat k)%nat).
Proof.
  intros Hn Hfuel. pose proof (Z.prime_ge_2 n Hn) as H2.
  destruct (Z.leb_spec n 3) as [H3 | H3].
  - assert (Hc : n = 2 \/ n = 3) by lia. destruct Hc as [-> | ->]; reflexivity.
  - destruct (prime_ge_5 n Hn H3) as [H5 Hodd].
    rewrite is_prime_odd_unfold by assumption.
    destruct (odd_part_returns fuel (n - 1)) as [d Hd]; [lia | |].
    { pose proof (Z.log2_le_mono (n - 1) n ltac:(lia)). lia. }
    unfold rbind, lift. rewrite Hd.
    destruct (odd_part_of_pred fuel n d H5 Hd) as [Hdpos (t & Hdt & Ht)].
    destruct (mr_rounds_prime src fuel n d t (Z.to_nat k) Hn H5 Hdpos Hdt c)
      as [Hok | [_ Hlt]]; [exact Hok | lia].
Qed.

(** A [False] of [is_prime] is never about a prime, whatever the fuel. *)
Lemma is_prime_false_inv (src : nat -> Z) (fuel : nat) (n k : Z) (c c' : nat) :
  is_prime src fuel n k c = Ret (false, c') -> ~ Z.prime n.
Proof.
  intros Hfalse Hn. pose proof (Z.prime_ge_2 n Hn) as H2.
  destruct (Z.leb_spec n 3) as [H3 | H3].
  - assert (Hc : n = 2 \/ n = 3) by lia.
    destruct Hc as [-> | ->]; discriminate.
  - destruct (prime_ge_5 n Hn H3) as [H5 Hodd].
    rewrite is_prime_odd_unfold in Hfalse by assumption.
    apply rbind_ret_inv in Hfalse. destruct Hfalse as (d & c1 & Hd & Hr).
    apply lift_ret_inv in Hd. destruct Hd as [Hd ->].
    destruct (odd_part_of_pred fuel n d H5 Hd) as [Hdpos (t & Hdt & Ht)].
    destruct (mr_rounds_prime src fuel n d t (Z.to_nat k) Hn H5 Hdpos Hdt c)
      as [Hok | [Hout _]]; congruence.
Qed.

(** X1.  [is_prime] never rejects a prime.  For a prime [n] and fuel of
    at least [log2 n], every source and every round count give [True],
    the source being read once per round when [n > 3]; and under any
    fuel an answer is never [False]. *)
Theorem is_prime_accepts_prime (src : nat -> Z) (fuel : nat) (n k : Z) (c : nat) :
  Z.prime n ->
  (Z.log2 n <= Z.of_nat fuel ->
   is_prime src fuel n k c
   = Ret (true, if n <=? 3 then c else (c + Z.to_nat k)%nat)) /\
  (forall b c', is_prime src fuel n k c = Ret (b, c') -> b = true).
Proof.
  intro Hn. split.
  - intro Hfuel. now apply is_prime_prime_true.
  - intros b c' Hret. destruct b; [reflexivity |].
    exfalso. now apply (is_prime_false_inv src fuel n k c c').
Qed.

(** ** [is_prime] always answers *)

Lemma mr_loop_returns (n : Z) (t : nat) :
  n <> 0 ->
  forall fuel x d,
    0 < d -> d * 2 ^ Z.of_nat t = n - 1 -> (t <= fuel)%nat ->
    exists b, mr_loop fuel x d n = Ret b.
Proof.
  intro Hn. induction t as [| t IH]; intros fuel x d Hd Hdt Hfuel.
  - change (2 ^ Z.of_nat 0) with 1 in Hdt.
    exists false. destruct fuel; cbn [mr_loop];
      (destruct (Z.eqb_spec d (n - 1)); [reflexivity | lia]).
  - assert (Hpos : 0 < 2 ^ Z.of_nat t) by (apply Z.pow_pos_nonneg; lia).
    assert (H2 : 2 ^ Z.of_nat (S t) = 2 * 2 ^ Z.of_nat t).
    { rewrite Nat2Z.inj_succ, Z.pow_succ_r by lia. reflexivity. }
    rewrite H2 in Hdt.
    destruct fuel as [| fuel]; [lia |]. cbn [mr_loop].
    destruct (Z.eqb_spec d (n - 1)); [now exists false |].
    rewrite py_mod_nz by assumption. cbn [bind].
    destruct (_ =? 1); [now exists false |].
    destruct (_ =? n - 1); [now exists true |].
    apply IH; lia.
Qed.

Lemma mr_rounds_returns (src : nat -> Z) (fuel : nat) (n d : Z) (t : nat) (k : nat) :
  5 <= n -> 0 < d -> d * 2 ^ Z.of_nat t = n - 1 -> (t <= fuel)%nat ->
  forall c, exists b c',
      mr_rounds src fuel k d n c = Ret (b, c') /\ (c <= c' <= c + k)%nat.
Proof.
  intros H5 Hd Hdt Hfuel.
  induction k as [| k IH]; intro c; cbn [mr_rounds].
  - exists true, c. split; [reflexivity | lia].
  - unfold rbind. rewrite miller_rabin_drawn by assumption. cbv zeta.
    destruct (mr_loop_returns n t ltac:(lia) fuel
                ((3 + src c mod (n - 4)) ^ d mod n) d Hd Hdt Hfuel) as [b Hb].
    unfold lift. rewrite Hb.
    assert (Hcont : forall ok : bool,
               exists b' c', (if negb ok then rret false
                              else mr_rounds src fuel k d n) (S c) = Ret (b', c')
                             /\ (c <= c' <= c + S k)%nat).
    { intros [|]; cbn [negb].
      - destruct (IH (S c)) as (b' & c' & Hr & Hc).
        exists b', c'. split; [assumption | lia].
      - exists false, (S c). split; [reflexivity | lia]. }
    destruct ((_ =? 1) || _); apply Hcont.
Qed.

(** X2.  With fuel of at least [log2 n], [is_prime] returns a boolean
    for every integer [n], every round count and every source: it
    neither raises nor runs on, and reads the source at most [k] times. *)
Theorem is_prime_total (src : nat -> Z) (fuel : nat) (n k : Z) (c : nat) :
  Z.log2 n <= Z.of_nat fuel ->
  exists b c',
    is_prime src fuel n k c = Ret (b, c') /\ (c <= c' <= c + Z.to_nat k)%nat.
Proof.
  intro Hfuel.
  destruct (Z.leb_spec n 3) as [H3 | H3].
  - unfold is_prime. destruct (Z.leb_spec n 1).
    + exists false, c. split; [reflexivity | lia].
    + destruct (Z.leb_spec n 3); [| lia].
      exists true, c. split; [reflexivity | lia].
  - pose proof (Z.mod_pos_bound n 2 ltac:(lia)) as Hbit.
    destruct (Z.eq_dec (n mod 2) 0) as [Heven | Hodd].
    + unfold is_prime. destruct (Z.leb_spec n 1); [lia |].
      destruct (Z.leb_spec n 3); [lia |]. rewrite Heven.
      exists false, c. split; [reflexivity | lia].
    + assert (H5 : 5 <= n).
      { destruct (Z.eq_dec n 4) as [-> | ?]; [exfalso; now apply Hodd | lia]. }
      rewrite is_prime_odd_unfold by lia.
      destruct (odd_part_returns fuel (n - 1)) as [d Hd]; [lia | |].
      { pose proof (Z.log2_le_mono (n - 1) n ltac:(lia)). lia. }
      unfold rbind, lift. rewrite Hd.
      destruct (odd_part_of_pred fuel n d H5 Hd) as [Hdpos (t & Hdt & Ht)].
      apply (mr_rounds_returns src fuel n d t); auto; lia.
Qed.

(** X3.  With a round count [k <= 0] no trial is run: every odd
    [n >= 5], prime or not, is declared prime, and the source is not
    read. *)
Theorem is_prime_no_rounds (src : nat -> Z) (fuel : nat) (n k : Z) (c : nat) :
  5 <= n -> n mod 2 = 1 -> k <= 0 -> Z.log2 n <= Z.of_nat fuel ->
  is_prime src fuel n k c = Ret (true, c).
Proof.
  intros H5 Hodd Hk Hfuel.
  rewrite is_prime_odd_unfold by assumption.
  destruct (odd_part_returns fuel (n - 1)) as [d Hd]; [lia | |].
  { pose proof (Z.log2_le_mono (n - 1) n ltac:(lia)). lia. }
  unfold rbind, lift. rewrite Hd.
  replace (Z.to_nat k) with O by lia. reflexivity.
Qed.

(** ** RSA prime search and key generation *)

(** X5.  The linear probe of the RSA [gen_large_prime], started at
    [start], returns the first candidate [p >= start] that [is_prime]
    accepts; every candidate it passed over was rejected, so no prime
    lies in [[start, p)]. *)
Theorem probe_first_accepted (src : nat -> Z) (n fuel : nat) (start : Z)
    (c : nat) (p : Z) (c' : nat) :
  RSA.probe src n fuel start c = Ret (p, c') ->
  start <= p /\
  (exists c1, is_prime src fuel p 5 c1 = Ret (true, c')) /\
  (forall m, start <= m < p -> ~ Z.prime m).
Proof.
  revert start c. induction n as [| n IH]; intros start c H; [discriminate |].
  cbn [RSA.probe] in H.
  apply rbind_ret_inv in H. destruct H as (ok & c1 & Hok & H).
  destruct ok.
  - unfold rret in H. injection H as <- <-.
    split; [lia |]. split; [now exists c |]. intros m Hm. lia.
  - apply IH in H. destruct H as (Hle & Hacc & Hnone).
    split; [lia |]. split; [assumption |].
    intros m Hm. destruct (Z.eq_dec m start) as [-> | Hne].
    + exact (is_prime_false_inv src fuel start 5 c c1 Hok).
    + apply Hnone. lia.
Qed.

(** For the exponent 65537 the recursion of [extended_gcd] is short
    whatever the modulus: 36 frames are enough. *)
Lemma extended_gcd_public_exponent (depth : nat) (phi_n : Z) :
  0 < phi_n -> (36 <= depth)%nat ->
  exists t, extended_gcd depth 65537 phi_n = Ret t.
Proof.
  intros Hphi Hdepth.
  apply extended_gcd_returns_small; [lia | assumption |].
  change (enough_frames 65537) with 35%nat. lia.
Qed.

(** X6.  [key_gen] draws two values from [gen_large_prime] and computes
    the key from them with no check on them and no retry: for
    [phi_n = (p - 1) * (q - 1) > 1] coprime to 65537 the key is
    [(p, q, p * q, phi_n, 65537, d)] with [d] in [[0, phi_n)] and
    [65537 * d % phi_n == 1]; otherwise [ValueError] is raised.  The
    recursion of [extended_gcd] on 65537 is short: 36 frames left are
    enough, however large the primes. *)
Theorem key_gen_from_primes (depth : nat) (p q : Z) :
  (forall src fuel c,
      RSA.key_gen src depth fuel c
      = rbind (RSA.gen_large_prime src fuel) (fun p' =>
        rbind (RSA.gen_large_prime src fuel) (fun q' =>
        lift (key_gen_with depth p' q'))) c) /\
  (1 < (p - 1) * (q - 1) -> (36 <= depth)%nat ->
   (Z.gcd 65537 ((p - 1) * (q - 1)) = 1 ->
    exists d,
      key_gen_with depth p q
      = Ret (p, q, p * q, (p - 1) * (q - 1), 65537, d) /\
      0 <= d < (p - 1) * (q - 1) /\
      (65537 * d) mod ((p - 1) * (q - 1)) = 1) /\
   (Z.gcd 65537 ((p - 1) * (q - 1)) <> 1 ->
    key_gen_with depth p q = Raise ValueError)).
Proof.
  split.
  - intros src fuel c. unfold RSA.key_gen, key_gen_with, rbind.
    destruct (RSA.gen_large_prime src fuel c) as [[p' c1] | |]; try reflexivity.
    destruct (RSA.gen_large_prime src fuel c1) as [[q' c2] | |]; try reflexivity.
    unfold lift. cbv zeta.
    destruct (mod_inverse depth 65537 ((p' - 1) * (q' - 1))); reflexivity.
  - intros Hphi Hdepth. unfold key_gen_with. cbv zeta.
    pose proof (extended_gcd_public_exponent depth ((p - 1) * (q - 1))
                  ltac:(lia) Hdepth) as Hret.
    split.
    + intro Hg.
      destruct (mod_inverse_returns depth 65537 _ Hphi Hg Hret)
        as (d & Hd & Hrange & Hinv).
      exists d. rewrite Hd. cbn [bind]. auto.
    + intro Hg.
      destruct (mod_inverse_raises depth 65537 ((p - 1) * (q - 1))
                  ltac:(lia) Hret) as [_ Hval].
      rewrite (Hval Hg). reflexivity.
Qed.

(** ** RSA on arbitrary integers *)

(** X7.  With a valid key, decrypting the encryption of any list of
    integers gives back each integer reduced modulo [n]: a plaintext
    outside [[0, n)] comes back wrapped, not as it was. *)
Theorem rsa_round_trip_wraps (p q n e d : Z) (plaintext_list : list Z) :
  Z.prime p -> Z.prime q -> p <> q -> n = p * q ->
  0 <= e -> 0 <= d ->
  (e * d) mod ((p - 1) * (q - 1)) = 1 ->
  exists ciphertext_list,
    RSA.rsa_encrypt plaintext_list e n = Ret ciphertext_list /\
    RSA.rsa_decrypt ciphertext_list d n
    = Ret (map (fun m => m mod n) plaintext_list).
Proof.
  intros Hp Hq Hne Hn He Hd Hed.
  pose proof (Z.prime_ge_2 p Hp). pose proof (Z.prime_ge_2 q Hq).
  assert (Hn1 : 1 < n) by nia.
  eexists. split; [now apply rsa_encrypt_spec |].
  rewrite rsa_decrypt_spec by assumption. f_equal.
  rewrite map_map. apply map_ext. intro m.
  rewrite Z.mod_pow_l, <- Z.pow_mul_r by assumption.
  subst n. apply rsa_exponent_cycle; auto; nia.
Qed.

(** X8.  For [e >= 0] and [n >= 2], [rsa_encrypt] returns one
    ciphertext per plaintext, in order, each in [[0, n)] and each the
    power of its own plaintext alone; with [n = 0] and [e > 0] a
    non-empty list raises [ZeroDivisionError]. *)
Theorem rsa_encrypt_elementwise (e n : Z) (plaintext_list : list Z) :
  0 <= e ->
  (2 <= n ->
   exists ciphertext_list,
     RSA.rsa_encrypt plaintext_list e n = Ret ciphertext_list /\
     List.length ciphertext_list = List.length plaintext_list /\
     Forall (fun c => 0 <= c < n) ciphertext_list /\
     (forall i, nth i ciphertext_list 0
                = if (i <? List.length plaintext_list)%nat
                  then nth i plaintext_list 0 ^ e mod n else 0)) /\
  (n = 0 -> 0 < e -> plaintext_list <> [] ->
   RSA.rsa_encrypt plaintext_list e n = Raise ZeroDivisionError).
Proof.
  intro He. split.
  - intro Hn. eexists. split; [apply rsa_encrypt_spec; lia |].
    split; [apply length_map |]. split.
    + apply Forall_map, Forall_forall. intros m _.
      apply Z.mod_pos_bound. lia.
    + intro i. destruct (Nat.ltb_spec i (List.length plaintext_list)) as [Hi | Hi].
      * rewrite (nth_indep _ 0 ((fun m => m ^ e mod n) 0)) by (rewrite length_map; lia).
        apply (map_nth (fun m => m ^ e mod n)).
      * apply nth_overflow. rewrite length_map. lia.
  - intros -> Hpos Hne. destruct plaintext_list as [| m rest]; [contradiction |].
    cbn [RSA.rsa_encrypt].
    rewrite <- (quick_pow_loop_enough (bit_length e) m e 0) by lia.
    assert (Hb : exists b, bit_length e = S b).
    { unfold bit_length. destruct (Z.leb_spec e 0); [lia | eauto]. }
    destruct Hb as [b ->]. cbn [quick_pow_loop].
    destruct (Z.eqb_spec e 0); [lia |].
    unfold py_mod. cbn. destruct (Z.land e 1 =? 0); reflexivity.
Qed.

(** X9.  Textbook RSA is multiplicative: for [e >= 0] and [n >= 2] the
    ciphertext of [m1 * m2] is the product of the ciphertexts of [m1]
    and [m2], reduced modulo [n]. *)
Theorem rsa_encrypt_multiplicative (e n m1 m2 : Z) :
  0 <= e -> 2 <= n ->
  exists c1 c2,
    RSA.rsa_encrypt [m1; m2] e n = Ret [c1; c2] /\
    RSA.rsa_encrypt [m1 * m2] e n = Ret [(c1 * c2) mod n].
Proof.
  intros He Hn. exists (m1 ^ e mod n), (m2 ^ e mod n).
  rewrite !rsa_encrypt_spec by lia. cbn [map].
  split; [reflexivity |]. do 2 f_equal.
  rewrite Z.pow_mul_l. apply Z.mul_mod. lia.
Qed.

(** ** The text helpers of [rsa.py] *)

(** Two codes of [[0, 94]], formatted and joined, read back as
    [100 * a + b]: checked on all 95 * 95 pairs. *)
Lemma four_digits_table :
  forallb (fun a =>
    forallb (fun b =>
      match int_of_str (format_02d a ++ format_02d b) with
      | inl v => v =? 100 * a + b
      | inr _ => false
      end) (map Z.of_nat (seq 0 95)))
    (map Z.of_nat (seq 0 95)) = true.
Proof. vm_compute. reflexivity. Qed.

Lemma four_digits_value (a b : Z) :
  0 <= a <= 94 -> 0 <= b <= 94 ->
  int_of_str (format_02d a ++ format_02d b) = inl (100 * a + b).
Proof.
  intros Ha Hb. pose proof four_digits_table as Htab.
  rewrite forallb_forall in Htab.
  assert (Hin : forall x, 0 <= x <= 94 -> In x (map Z.of_nat (seq 0 95))).
  { intros x Hx. apply in_map_iff. exists (Z.to_nat x).
    split; [lia | apply in_seq; lia]. }
  specialize (Htab a (Hin a Ha)). rewrite forallb_forall in Htab.
  specialize (Htab b (Hin b Hb)).
  destruct (int_of_str (format_02d a ++ format_02d b)) as [v | err];
    [| discriminate].
  apply Z.eqb_eq in Htab. now subst v.
Qed.

Lemma two_digit_codes_filter (content : list Z) :
  two_digit_codes content
  = map (fun char => format_02d (char - 32))
        (filter (fun char => (32 <=? char) && (char <=? 126)) content).
Proof.
  induction content as [| char rest IH]; cbn [two_digit_codes filter map].
  - reflexivity.
  - unfold ord. destruct ((32 <=? char) && (char <=? 126)); cbn [map];
      now rewrite IH.
Qed.

(** The pairing loop on the codes of an even number of characters. *)
Lemma four_digit_numbers_even (half : nat) :
  forall codes : list Z,
    List.length codes = (2 * half)%nat ->
    Forall (fun x => 0 <= x <= 94) codes ->
    exists numbers,
      four_digit_numbers (map format_02d codes) = inl numbers /\
      List.length numbers = half /\
      Forall (fun v => 0 <= v <= 9494) numbers /\
      int2string numbers = map (fun x => x + 32) codes.
Proof.
  induction half as [| half IH]; intros codes Hlen Hall.
  - destruct codes; [| discriminate]. exists []. repeat split. constructor.
  - destruct codes as [| a [| b rest]]; try (cbn in Hlen; lia).
    inversion Hall as [| ? ? Ha Hall']; subst.
    inversion Hall' as [| ? ? Hb Hrest]; subst.
    destruct (IH rest) as (numbers & Hnum & Hl & Hr & Hs);
      [cbn in Hlen; lia | assumption |].
    exists (100 * a + b :: numbers).
    cbn [map four_digit_numbers].
    rewrite four_digits_value, Hnum by assumption.
    split; [reflexivity |]. split; [cbn; lia |].
    split; [constructor; [lia | assumption] |].
    cbn [int2string]. cbv zeta.
    replace ((100 * a + b) / 100) with a
      by (apply (Z.div_unique _ _ a b); lia).
    replace ((100 * a + b) mod 100) with b
      by (apply (Z.mod_unique _ _ a b); lia).
    destruct (Z.leb_spec 0 a); [| lia]. destruct (Z.leb_spec a 94); [| lia].
    destruct (Z.leb_spec 0 b); [| lia]. destruct (Z.leb_spec b 94); [| lia].
    cbn [andb app map]. now rewrite Hs.
Qed.

(** What [file2int] computes, in one statement. *)
Lemma file2int_spec (content : list Z) :
  let text := filter (fun char => (32 <=? char) && (char <=? 126)) content in
  let pad := if Nat.even (List.length text) then [] else [32] in
  exists four_digit_list,
    file2int content = inl (four_digit_list, Z.of_nat (List.length text)) /\
    (2 * List.length four_digit_list
     = List.length text + List.length pad)%nat /\
    Forall (fun v => 0 <= v <= 9494) four_digit_list /\
    int2string four_digit_list = text ++ pad.
Proof.
  cbv zeta. unfold file2int. rewrite two_digit_codes_filter.
  set (text := filter (fun char => (32 <=? char) && (char <=? 126)) content).
  rewrite length_map.
  assert (Htext : Forall (fun x => 0 <= x <= 94) (map (fun char => char - 32) text)).
  { apply Forall_map, Forall_forall. intros char Hin.
    apply filter_In in Hin. destruct Hin as [_ Hp]. lia. }
  assert (Hback : forall l : list Z,
             map (fun x => x + 32) (map (fun char => char - 32) l) = l).
  { intro l. rewrite map_map. rewrite <- (map_id l) at 2.
    apply map_ext. intro x. lia. }
  assert (Hfmt : map (fun char => format_02d (char - 32)) text
                 = map format_02d (map (fun char => char - 32) text))
    by (now rewrite map_map).
  rewrite Hfmt.
  destruct (Nat.even (List.length text)) eqn:Heven.
  - apply Nat.even_spec in Heven. destruct Heven as [half Hhalf].
    replace (Z.of_nat (List.length text) mod 2 =? 0) with true;
      [| symmetry; apply Z.eqb_eq; rewrite Hhalf, Nat2Z.inj_mul;
         rewrite Z.mul_comm; apply Z.mod_mul; lia].
    cbn [negb].
    destruct (four_digit_numbers_even half (map (fun char => char - 32) text))
      as (numbers & Hnum & Hl & Hr & Hs);
      [now rewrite length_map | assumption |].
    exists numbers. rewrite Hnum. split; [reflexivity |].
    split; [cbn [List.length]; lia |]. split; [assumption |].
    rewrite Hs, Hback, app_nil_r. reflexivity.
  - assert (Hodd : Nat.odd (List.length text) = true)
      by (rewrite <- Nat.negb_even, Heven; reflexivity).
    apply Nat.odd_spec in Hodd. destruct Hodd as [half Hhalf].
    replace (Z.of_nat (List.length text) mod 2 =? 0) with false;
      [| symmetry; apply Z.eqb_neq; rewrite Hhalf, Nat2Z.inj_add, Nat2Z.inj_mul;
         rewrite Z.add_comm, Z.mul_comm, Z.mod_add by lia; discriminate].
    cbn [negb].
    change ["00"%string] with (map format_02d [0]).
    rewrite <- map_app.
    destruct (four_digit_numbers_even (S half)
                (map (fun char => char - 32) text ++ [0]))
      as (numbers & Hnum & Hl & Hr & Hs).
    + rewrite length_app, length_map. cbn [List.length]. lia.
    + apply Forall_app. split; [assumption | repeat constructor; lia].
    + exists numbers. rewrite Hnum. split; [reflexivity |].
      split; [cbn [List.length]; lia |]. split; [assumption |].
      rewrite Hs, map_app, Hback. reflexivity.
Qed.

(** X10.  [file2int] never fails.  It keeps the printable characters
    (codes 32 to 126) of the text, reports their number as
    [original_len], and packs them two by two, a space added to an odd
    number of them, into integers of [[0, 9494]]. *)
Theorem file2int_output (content : list Z) :
  exists four_digit_list,
    file2int content
    = inl (four_digit_list,
           Z.of_nat (List.length
             (filter (fun char => (32 <=? char) && (char <=? 126)) content))) /\
    List.length four_digit_list
    = Nat.div2 (S (List.length
        (filter (fun char => (32 <=? char) && (char <=? 126)) content))) /\
    Forall (fun v => 0 <= v <= 9494) four_digit_list.
Proof.
  destruct (file2int_spec content) as (l & Hfile & Hlen & Hrange & _).
  exists l. split; [exact Hfile |]. split; [| exact Hrange].
  destruct (Nat.even _) eqn:Heven in Hlen; cbn [List.length] in Hlen.
  - apply Nat.even_spec in Heven. destruct Heven as [half Hhalf].
    rewrite Hhalf in Hlen |- *.
    replace (S (2 * half)) with (S (2 * half + 0)) by lia.
    rewrite Nat.add_0_r, Nat.div2_succ_double. lia.
  - assert (Hodd : Nat.odd (List.length
       (filter (fun char => (32 <=? char) && (char <=? 126)) content)) = true)
      by (rewrite <- Nat.negb_even, Heven; reflexivity).
    apply Nat.odd_spec in Hodd. destruct Hodd as [half Hhalf].
    rewrite Hhalf in Hlen |- *.
    replace (S (2 * half + 1)) with (2 * S half)%nat by lia.
    rewrite Nat.div2_double. lia.
Qed.

Lemma removelast_last {A : Type} (l : list A) (x : A) : removelast (l ++ [x]) = l.
Proof. rewrite removelast_app by discriminate. cbn. apply app_nil_r. Qed.

Lemma strip_pad (text : list Z) (s : list Z) :
  s = text ++ (if Nat.even (List.length text) then [] else [32]) ->
  (if negb (Z.of_nat (List.length text) mod 2 =? 0) then removelast s else s)
  = text.
Proof.
  intros ->. destruct (Nat.even (List.length text)) eqn:Heven.
  - apply Nat.even_spec in Heven. destruct Heven as [half Hhalf].
    rewrite Hhalf, Nat2Z.inj_mul, Z.mul_comm, Z.mod_mul by lia.
    cbn. apply app_nil_r.
  - assert (Hodd : Nat.odd (List.length text) = true)
      by (rewrite <- Nat.negb_even, Heven; reflexivity).
    apply Nat.odd_spec in Hodd. destruct Hodd as [half Hhalf].
    rewrite Hhalf, Nat2Z.inj_add, Nat2Z.inj_mul.
    rewrite Z.add_comm, Z.mul_comm, Z.mod_add by lia.
    cbn [Z.of_nat Z.modulo negb]. change (1 mod 2 =? 0) with false.
    cbn [negb]. apply removelast_last.
Qed.

(** X11.  Decoding undoes encoding: [int2string] of the list that
    [file2int] returns, its last character dropped when [original_len]
    is odd (as the script does), is the text with its non-printable
    characters removed. *)
Theorem text_round_trip (content four_digit_list : list Z) (original_len : Z) :
  file2int content = inl (four_digit_list, original_len) ->
  (if negb (original_len mod 2 =? 0)
   then removelast (int2string four_digit_list)
   else int2string four_digit_list)
  = filter (fun char => (32 <=? char) && (char <=? 126)) content.
Proof.
  intro Hfile.
  destruct (file2int_spec content) as (l & Hspec & _ & _ & Hback).
  rewrite Hspec in Hfile. injection Hfile as <- <-.
  now apply strip_pad.
Qed.

(** Decryption after encryption, element by element. *)
Lemma rsa_decrypt_encrypt (p q n e d : Z) (plaintext_list : list Z) :
  Z.prime p -> Z.prime q -> p <> q -> n = p * q ->
  0 <= e -> 0 <= d ->
  (e * d) mod ((p - 1) * (q - 1)) = 1 ->
  Forall (fun m => 0 <= m < n) plaintext_list ->
  exists ciphertext_list,
    RSA.rsa_encrypt plaintext_list e n = Ret ciphertext_list /\
    RSA.rsa_decrypt ciphertext_list d n = Ret plaintext_list.
Proof.
  intros Hp Hq Hne Hn He Hd Hed Hrange.
  pose proof (Z.prime_ge_2 p Hp). pose proof (Z.prime_ge_2 q Hq).
  assert (Hn1 : 1 < n) by nia.
  eexists. split; [now apply rsa_encrypt_spec |].
  rewrite rsa_decrypt_spec by assumption. f_equal.
  rewrite map_map. rewrite <- (map_id plaintext_list) at 2.
  apply map_ext_in. intros m Hin.
  rewrite Forall_forall in Hrange. specialize (Hrange m Hin).
  rewrite Z.mod_pow_l, <- Z.pow_mul_r by assumption.
  subst n. rewrite rsa_exponent_cycle by (auto; nia).
  apply Z.mod_small. lia.
Qed.

(** X12.  A text goes through RSA and back: with a valid key whose
    modulus exceeds 9494, [file2int], [rsa_encrypt], [rsa_decrypt] and
    [int2string] in a row, the pad dropped, give the printable
    characters of the text. *)
Theorem text_through_rsa (p q n e d : Z) (content : list Z) :
  Z.prime p -> Z.prime q -> p <> q -> n = p * q ->
  0 <= e -> 0 <= d ->
  (e * d) mod ((p - 1) * (q - 1)) = 1 ->
  9494 < n ->
  exists plaintext_list original_len ciphertext_list,
    file2int content = inl (plaintext_list, original_len) /\
    RSA.rsa_encrypt plaintext_list e n = Ret ciphertext_list /\
    (exists decrypted,
        RSA.rsa_decrypt ciphertext_list d n = Ret decrypted /\
        (if negb (original_len mod 2 =? 0)
         then removelast (int2string decrypted)
         else int2string decrypted)
        = filter (fun char => (32 <=? char) && (char <=? 126)) content).
Proof.
  intros Hp Hq Hne Hn He Hd Hed Hbig.
  destruct (file2int_spec content) as (l & Hspec & _ & Hrange & Hback).
  destruct (rsa_decrypt_encrypt p q n e d l) as (cl & Henc & Hdec); auto.
  { eapply Forall_impl; [| exact Hrange]. cbv beta. intros v Hv. lia. }
  eexists l, _, cl. split; [exact Hspec |]. split; [exact Henc |].
  exists l. split; [exact Hdec |]. now apply strip_pad.
Qed.

Lemma chr_code_point (number : Z) :
  0 <= number <= 0x10FFFF -> chr number = Ret number.
Proof.
  intro H. unfold chr.
  destruct (Z.ltb_spec number (-2147483648)); [lia |].
  destruct (Z.ltb_spec 2147483647 number); [lia |].
  destruct (Z.leb_spec 0 number); [| lia].
  destruct (Z.leb_spec number 0x10FFFF); [| lia].
  reflexivity.
Qed.

Lemma chr_no_code_point (number : Z) :
  number < 0 \/ 0x10FFFF < number ->
  chr number
  = if (number <? -2147483648) || (2147483647 <? number)
    then Raise OverflowError else Raise ValueError.
Proof.
  intro H. unfold chr.
  destruct ((number <? -2147483648) || (2147483647 <? number));
    [reflexivity |].
  destruct (Z.leb_spec 0 number); destruct (Z.leb_spec number 0x10FFFF);
    cbn [andb]; try reflexivity; lia.
Qed.

Lemma int_list_to_string_valid (int_list : list Z) :
  Forall (fun v => 0 <= v <= 0x10FFFF) int_list ->
  int_list_to_string int_list = Ret int_list.
Proof.
  induction 1 as [| v rest Hv _ IH]; cbn [int_list_to_string].
  - reflexivity.
  - rewrite chr_code_point by assumption.
    cbn [bind]. now rewrite IH.
Qed.

(** X13.  [int_list_to_string] returns the characters numbered by the
    list when every number is a code point, of [[0, 0x10FFFF]]; when
    one is not, the first such number decides the error: [ValueError]
    when it fits a C [int], [OverflowError] when it does not. *)
Theorem int_list_to_string_total (int_list : list Z) :
  (Forall (fun v => 0 <= v <= 0x10FFFF) int_list ->
   int_list_to_string int_list = Ret int_list) /\
  (forall before number rest,
      int_list = before ++ number :: rest ->
      Forall (fun v => 0 <= v <= 0x10FFFF) before ->
      number < 0 \/ 0x10FFFF < number ->
      int_list_to_string int_list
      = if (number <? -2147483648) || (2147483647 <? number)
        then Raise OverflowError else Raise ValueError).
Proof.
  split; [apply int_list_to_string_valid |].
  intros before number rest -> Hbefore Hbad.
  induction Hbefore as [| v before Hv _ IH]; cbn [app int_list_to_string].
  - rewrite chr_no_code_point by assumption.
    destruct ((number <? -2147483648) || (2147483647 <? number)); reflexivity.
  - rewrite chr_code_point by assumption. cbn [bind]. rewrite IH.
    destruct ((number <? -2147483648) || (2147483647 <? number)); reflexivity.
Qed.

(** X14.  The one-character-per-integer coding goes through RSA and
    back: with a valid key whose modulus exceeds [0x10FFFF],
    [read_file_to_int_list], [rsa_encrypt], [rsa_decrypt] and
    [int_list_to_string] in a row return the text. *)
Theorem chars_through_rsa (p q n e d : Z) (content : list Z) :
  Z.prime p -> Z.prime q -> p <> q -> n = p * q ->
  0 <= e -> 0 <= d ->
  (e * d) mod ((p - 1) * (q - 1)) = 1 ->
  0x10FFFF < n ->
  Forall (fun char => 0 <= char <= 0x10FFFF) content ->
  exists ciphertext_list decrypted,
    RSA.rsa_encrypt (read_file_to_int_list content) e n = Ret ciphertext_list /\
    RSA.rsa_decrypt ciphertext_list d n = Ret decrypted /\
    int_list_to_string decrypted = Ret content.
Proof.
  intros Hp Hq Hne Hn He Hd Hed Hbig Hstr.
  assert (Hread : read_file_to_int_list content = content).
  { unfold read_file_to_int_list, ord. apply map_id. }
  rewrite Hread.
  destruct (rsa_decrypt_encrypt p q n e d content) as (cl & Henc & Hdec); auto.
  { eapply Forall_impl; [| exact Hstr]. cbv beta. intros v Hv. lia. }
  exists cl, content. split; [exact Henc |]. split; [exact Hdec |].
  now apply int_list_to_string_valid.
Qed.

(** ** Generators *)

(** The scan always answers, and what it answers is the first value of
    its range that passes, if there is one. *)
Lemma find_generator_from_sound (q p : Z) (n : nat) :
  1 < p -> 0 <= q ->
  forall g,
    (exists g1,
        ElGamal.find_generator_from n g q p = Ret (Some g1) /\
        g <= g1 < g + Z.of_nat n /\
        (g1 ^ 2 mod p <> 1 /\ g1 ^ q mod p <> 1) /\
        (forall i, g <= i < g1 -> ~ (i ^ 2 mod p <> 1 /\ i ^ q mod p <> 1))) \/
    (ElGamal.find_generator_from n g q p = Ret None /\
     (forall i, g <= i < g + Z.of_nat n ->
                ~ (i ^ 2 mod p <> 1 /\ i ^ q mod p <> 1))).
Proof.
  intros Hp Hq. induction n as [| n IH]; intro g.
  - right. split; [reflexivity |]. intros i Hi. lia.
  - cbn [ElGamal.find_generator_from].
    destruct (generator_test_total g q p Hp Hq) as [b Hb].
    rewrite Hb. cbn [bind]. destruct b.
    + apply generator_test_true in Hb; try assumption.
      left. exists g. split; [reflexivity |]. split; [lia |].
      split; [assumption |]. intros i Hi. lia.
    + assert (Hg : ~ (g ^ 2 mod p <> 1 /\ g ^ q mod p <> 1)).
      { intro Hok. apply generator_test_true in Hok; try assumption. congruence. }
      destruct (IH (g + 1)) as [(g1 & Hfind & Hr & Hv & Hleast) | [Hnone Hall]].
      * left. exists g1. split; [assumption |]. split; [lia |].
        split; [assumption |]. intros i Hi.
        destruct (Z.eq_dec i g) as [-> | Hne]; [assumption | apply Hleast; lia].
      * right. split; [assumption |]. intros i Hi.
        destruct (Z.eq_dec i g) as [-> | Hne]; [assumption | apply Hall; lia].
Qed.

Lemma find_generator_some_inv (p g : Z) :
  ElGamal.find_generator p = Ret (Some g) ->
  2 <= g < p /\
  (g ^ 2 mod p <> 1 /\ g ^ ((p - 1) / 2) mod p <> 1) /\
  (forall i, 2 <= i < g ->
             ~ (i ^ 2 mod p <> 1 /\ i ^ ((p - 1) / 2) mod p <> 1)).
Proof.
  unfold ElGamal.find_generator. cbv zeta. intro H.
  destruct (Z_lt_le_dec p 3) as [Hsmall | Hbig].
  - replace (Z.to_nat (p - 2)) with O in H by lia. discriminate.
  - destruct (find_generator_from_sound ((p - 1) / 2) p (Z.to_nat (p - 2))
                ltac:(lia) ltac:(apply Z.div_pos; lia) 2)
      as [(g1 & Hfind & Hr & Hv & Hleast) | [Hnone _]]; [| congruence].
    assert (g1 = g) by congruence. subst g1.
    split; [lia |]. split; assumption.
Qed.

(** X15.  [find_generator] never raises and never runs on: for every
    integer [p] it returns either the least [g] of [[2, p)] with
    [g^2 mod p != 1] and [g^((p-1)/2) mod p != 1], or [None] when no
    [g] of [[2, p)] passes both tests. *)
Theorem find_generator_answer (p : Z) :
  (exists g,
      ElGamal.find_generator p = Ret (Some g) /\
      2 <= g < p /\
      (g ^ 2 mod p <> 1 /\ g ^ ((p - 1) / 2) mod p <> 1) /\
      (forall i, 2 <= i < g ->
                 ~ (i ^ 2 mod p <> 1 /\ i ^ ((p - 1) / 2) mod p <> 1))) \/
  (ElGamal.find_generator p = Ret None /\
   (forall i, 2 <= i < p ->
              ~ (i ^ 2 mod p <> 1 /\ i ^ ((p - 1) / 2) mod p <> 1))).
Proof.
  unfold ElGamal.find_generator. cbv zeta.
  destruct (Z_lt_le_dec p 3) as [Hsmall | Hbig].
  - right. replace (Z.to_nat (p - 2)) with O by lia.
    split; [reflexivity |]. intros i Hi [H2 _].
    assert (i = 2 /\ p = 3) as [-> ->] by lia. now apply H2.
  - destruct (find_generator_from_sound ((p - 1) / 2) p (Z.to_nat (p - 2))
                ltac:(lia) ltac:(apply Z.div_pos; lia) 2)
      as [(g1 & Hfind & Hr & Hv & Hleast) | [Hnone Hall]].
    + left. exists g1. split; [assumption |]. split; [lia |]. split; assumption.
    + right. split; [assumption |]. intros i Hi. apply Hall. lia.
Qed.

(** ** The order of a generator *)

(** A power that is 1 modulo [p] stays 1 under any further power. *)
Lemma pow_one_pow (p g e u : Z) :
  1 < p -> 0 <= e -> 0 <= u -> g ^ e mod p = 1 -> g ^ (e * u) mod p = 1.
Proof.
  intros Hp He Hu H1.
  rewrite Z.pow_mul_r, <- Z.mod_pow_l, H1, Z.pow_1_l by lia.
  apply Z.mod_1_l. lia.
Qed.

(** The positive divisors of [2 * q] below it, for a prime [q]. *)
Lemma divisors_of_double_prime (q d : Z) :
  Z.prime q -> 0 < d < 2 * q -> (d | 2 * q) -> d = 1 \/ d = 2 \/ d = q.
Proof.
  intros Hq Hd Hdiv. pose proof (Z.prime_ge_2 q Hq) as Hq2.
  destruct (Z.eq_dec (d mod q) 0) as [Hqd | Hnqd].
  - apply Z.mod_divide in Hqd; [| lia]. destruct Hqd as [m Hm].
    assert (m = 1) by nia. right. right. lia.
  - assert (Hco : Z.gcd d q = 1).
    { rewrite Z.gcd_comm. apply Z.coprime_prime_l; [assumption |].
      intro Hx. apply Hnqd. apply Z.mod_divide; [lia | assumption]. }
    rewrite Z.mul_comm in Hdiv. apply Z.gauss in Hdiv; [| assumption].
    destruct Hdiv as [m Hm]. assert (m = 1 \/ m = 2) by nia.
    assert (d = 1 \/ d = 2) by nia. tauto.
Qed.

(** For a safe prime, the two tests of [find_generator] leave only
    elements of full order. *)
Lemma generator_full_order (p g e : Z) :
  Z.prime p -> Z.prime ((p - 1) / 2) -> g mod p <> 0 ->
  g ^ 2 mod p <> 1 -> g ^ ((p - 1) / 2) mod p <> 1 ->
  0 < e < p - 1 -> g ^ e mod p <> 1.
Proof.
  intros Hp Hq Hg H2 Hgq He Hone.
  pose proof (Z.prime_ge_2 p Hp) as Hp2.
  pose proof (Z.prime_ge_2 _ Hq) as Hq2.
  set (q := (p - 1) / 2) in *.
  assert (Hp3 : 2 < p) by lia.
  pose proof (prime_odd p Hp Hp3) as Hodd.
  assert (Hpq : p - 1 = 2 * q).
  { unfold q. pose proof (Z.div_mod p 2 ltac:(lia)) as Hdm. rewrite Hodd in Hdm.
    replace (p - 1) with (p / 2 * 2) by lia. rewrite Z.div_mul by lia. lia. }
  set (d := Z.gcd e (p - 1)).
  assert (Hdpos : 0 < d).
  { unfold d. pose proof (Z.gcd_nonneg e (p - 1)).
    destruct (Z.eq_dec (Z.gcd e (p - 1)) 0) as [H0 | ?]; [| lia].
    apply Z.gcd_eq_0_l in H0. lia. }
  assert (Hde : (d | e)) by apply Z.gcd_divide_l.
  assert (Hdp : (d | p - 1)) by apply Z.gcd_divide_r.
  assert (Hdle : d <= e) by (apply Z.divide_pos_le; [lia | assumption]).
  (* g^d = 1, from a non-negative multiple of e congruent to d *)
  assert (Hd1 : g ^ d mod p = 1).
  { destruct (Z.gcd_bezout e (p - 1) d eq_refl) as (u & v & Huv).
    set (u' := u mod (p - 1)).
    assert (Hu' : 0 <= u' < p - 1) by (apply Z.mod_pos_bound; lia).
    rewrite <- (pow_exponent_cong p g (e * u') d Hp Hg); [| nia | lia |].
    - apply pow_one_pow; lia.
    - unfold u'. rewrite Z.mul_mod_idemp_r by lia.
      replace (e * u) with (d + (- v) * (p - 1)) by lia.
      apply Z.mod_add. lia. }
  rewrite Hpq in Hdp.
  destruct (divisors_of_double_prime q d Hq ltac:(lia) Hdp) as [H | [H | H]];
    rewrite H in Hd1.
  - apply H2. rewrite Z.pow_1_r in Hd1.
    rewrite Z.pow_2_r, Z.mul_mod, Hd1 by lia. cbn. apply Z.mod_1_l. lia.
  - now apply H2.
  - now apply Hgq.
Qed.

(** Powers of an element of full order differ below the order. *)
Lemma generator_powers_distinct (p g : Z) :
  Z.prime p -> g mod p <> 0 ->
  (forall e, 0 < e < p - 1 -> g ^ e mod p <> 1) ->
  forall i j, 0 <= i < j -> j < p - 1 -> g ^ i mod p <> g ^ j mod p.
Proof.
  intros Hp Hg Hord i j Hij Hj Heq.
  pose proof (Z.prime_ge_2 p Hp) as Hp2.
  apply (Hord (j - i)); [lia |].
  assert (Hdiv : (p | g ^ i * (g ^ (j - i) - 1))).
  { apply Z.mod_divide; [lia |].
    rewrite Z.mul_sub_distr_l, Z.mul_1_r, <- Z.pow_add_r by lia.
    replace (i + (j - i)) with j by lia.
    rewrite Zminus_mod, Heq, Z.sub_diag. apply Z.mod_0_l. lia. }
  apply Z.divide_prime_mul in Hdiv; [| assumption].
  destruct Hdiv as [Hgi | Hone].
  - exfalso. apply Hg.
    assert (Hunit : Z.gcd p (g ^ i) = 1).
    { apply Z.coprime_pow_r; [lia |]. apply Z.coprime_prime_l; [assumption |].
      intro Hx. apply Hg. apply Z.mod_divide; [lia | assumption]. }
    apply Z.divide_gcd_iff in Hgi; lia.
  - apply Z.mod_divide in Hone; [| lia].
    apply Z.cong_iff_0 in Hone. rewrite Hone. apply Z.mod_1_l. lia.
Qed.

(** X16.  For a safe prime [p], the [g] that [find_generator] returns
    is a primitive root: no power [g^e] with [0 < e < p - 1] is 1, and
    the powers [g^0, ..., g^(p-2)] are pairwise different modulo [p]. *)
Theorem find_generator_primitive_root (p g : Z) :
  Z.prime p -> Z.prime ((p - 1) / 2) ->
  ElGamal.find_generator p = Ret (Some g) ->
  (forall e, 0 < e < p - 1 -> g ^ e mod p <> 1) /\
  (forall i j, 0 <= i < j -> j < p - 1 -> g ^ i mod p <> g ^ j mod p).
Proof.
  intros Hp Hq Hfind. pose proof (Z.prime_ge_2 p Hp) as Hp2.
  apply find_generator_some_inv in Hfind.
  destruct Hfind as (Hrange & [H2 Hgq] & _).
  assert (Hg : g mod p <> 0) by (rewrite Z.mod_small by lia; lia).
  assert (Hord : forall e, 0 < e < p - 1 -> g ^ e mod p <> 1).
  { intros e He. now apply generator_full_order. }
  split; [exact Hord |].
  now apply generator_powers_distinct.
Qed.

(** ** Keys, signatures and verification together *)

(** Exponents may be reduced modulo [p - 1] as soon as [g^(p-1)] is 1
    modulo [p]; primality of [p] is not asked for. *)
Lemma pow_cycle_reduce (p g a : Z) :
  1 < p -> g ^ (p - 1) mod p = 1 -> 0 <= a ->
  g ^ a mod p = g ^ (a mod (p - 1)) mod p.
Proof.
  intros Hp Hone Ha.
  destruct (Z.eq_dec p 2) as [-> | Hp2].
  - change (2 - 1) with 1 in *. rewrite Z.pow_1_r in Hone.
    rewrite Z.mod_1_r, Z.pow_0_r.
    rewrite <- Z.mod_pow_l, Hone, Z.pow_1_l by lia. reflexivity.
  - pose proof (Z.mod_pos_bound a (p - 1) ltac:(lia)) as Hr.
    assert (Hq : 0 <= a / (p - 1)) by (apply Z.div_pos; lia).
    rewrite (Z.div_mod a (p - 1)) at 1 by lia.
    rewrite Z.pow_add_r, Z.pow_mul_r by nia.
    rewrite <- Z.mul_mod_idemp_l, <- Z.mod_pow_l, Hone, Z.pow_1_l by lia.
    rewrite Z.mod_1_l, Z.mul_1_l by lia. reflexivity.
Qed.

Lemma pow_cycle_cong (p g a b : Z) :
  1 < p -> g ^ (p - 1) mod p = 1 -> 0 <= a -> 0 <= b ->
  a mod (p - 1) = b mod (p - 1) ->
  g ^ a mod p = g ^ b mod p.
Proof.
  intros Hp Hone Ha Hb Hab.
  rewrite (pow_cycle_reduce p g a), (pow_cycle_reduce p g b) by assumption.
  now rewrite Hab.
Qed.

(** The verification equation for a signature built as [signmsg]
    builds it. *)
Lemma signature_equation_cycle (p g x k k_inv y H : Z) :
  1 < p -> g ^ (p - 1) mod p = 1 -> 0 <= x -> 0 <= k -> 0 <= H ->
  k * k_inv + (p - 1) * y = 1 ->
  ((g ^ x mod p) ^ (g ^ k mod p)
   * (g ^ k mod p) ^ ((k_inv * (H - x * (g ^ k mod p))) mod (p - 1))) mod p
  = g ^ H mod p.
Proof.
  intros Hp Hone Hx Hk HH Hbez.
  set (r := g ^ k mod p).
  set (s := (k_inv * (H - x * r)) mod (p - 1)).
  assert (Hr : 0 <= r) by (apply Z.mod_pos_bound; lia).
  assert (Hs : 0 <= s).
  { destruct (Z.eq_dec p 2) as [-> | Hp2].
    - unfold s. change (2 - 1) with 1. rewrite Z.mod_1_r. lia.
    - apply Z.mod_pos_bound. lia. }
  assert (H1 : (g ^ x mod p) ^ r mod p = g ^ (x * r) mod p).
  { rewrite Z.mod_pow_l, <- Z.pow_mul_r by lia. reflexivity. }
  assert (H2 : r ^ s mod p = g ^ (k * s) mod p).
  { unfold r. rewrite Z.mod_pow_l, <- Z.pow_mul_r by lia. reflexivity. }
  rewrite Z.mul_mod, H1, H2 by lia.
  rewrite <- Z.mul_mod, <- Z.pow_add_r by nia.
  apply pow_cycle_cong; try assumption; [nia |].
  destruct (Z.eq_dec p 2) as [-> | Hp2].
  - change (2 - 1) with 1. now rewrite !Z.mod_1_r.
  - unfold s.
    rewrite <- Z.add_mod_idemp_r, Z.mul_mod_idemp_r, Z.add_mod_idemp_r by lia.
    assert (Hkk : k * k_inv = 1 - (p - 1) * y) by lia.
    replace (x * r + k * (k_inv * (H - x * r)))
      with (H + (- y * (H - x * r)) * (p - 1))
      by (rewrite (Z.mul_assoc k), Hkk; ring).
    apply Z.mod_add. lia.
Qed.

(** A call of [quick_pow] that returns had a non-negative exponent. *)
Lemma quick_pow_ret_inv (m e n v : Z) :
  1 < n -> quick_pow m e n = Ret v -> 0 <= e /\ v = m ^ e mod n.
Proof.
  intros Hn H.
  destruct (Z_lt_le_dec e 0) as [Hneg | Hpos].
  - unfold quick_pow in H. rewrite quick_pow_loop_negative in H by lia.
    discriminate.
  - rewrite quick_pow_mod in H by assumption.
    split; [assumption | congruence].
Qed.

(** What a run of [gen_key] that returns went through. *)
Lemma gen_key_ret_inv (src : nat -> Z) (fuel : nat) c p g y x c' :
  ElGamal.gen_key src fuel c = Ret ((p, g, y, x), c') ->
  2 ^ 63 <= p <= 2 ^ 64 - 1 /\
  2 <= x <= p - 2 /\
  exists g0,
    g = Some g0 /\ ElGamal.find_generator p = Ret (Some g0) /\
    quick_pow g0 x p = Ret y.
Proof.
  unfold ElGamal.gen_key, ElGamal.gen_large_prime. intro H.
  apply rbind_ret_inv in H. destruct H as (p0 & c1 & Hprime & H).
  apply gen_large_prime_loop_ret in Hprime. destruct Hprime as [Hrange _].
  apply rbind_ret_inv in H. destruct H as (g1 & c2 & Hgen & H).
  apply lift_ret_inv in Hgen. destruct Hgen as [Hgen ->].
  unfold ElGamal.gen_key_with in H.
  apply rbind_ret_inv in H. destruct H as (x0 & c3 & Hx & H).
  apply randint_ret_inv in Hx. destruct Hx as [Hx ->].
  apply rbind_ret_inv in H. destruct H as (y0 & c4 & Hy & H).
  apply lift_ret_inv in Hy. destruct Hy as [Hy ->].
  unfold rret in H.
  assert (p0 = p /\ g1 = g /\ y0 = y /\ x0 = x) as (-> & -> & -> & ->).
  { repeat split; congruence. }
  split; [assumption |]. split; [assumption |].
  destruct g as [g0 |].
  - exists g0. repeat split; assumption.
  - cbn [quick_pow_obj] in Hy.
    destruct (Z.eqb_spec x 0); [lia | discriminate].
Qed.

(** X17.  Whatever key [gen_key] returns is well formed: [p] has
    exactly 64 bits, [g] is an integer (never [None]) of [[2, p)] that
    passed both tests of [find_generator], the private key [x] lies in
    [[2, p - 2]] and the public key is [y = g^x mod p], in [[0, p)]. *)
Theorem gen_key_well_formed (src : nat -> Z) (fuel : nat) c p g y x c' :
  ElGamal.gen_key src fuel c = Ret ((p, g, y, x), c') ->
  2 ^ 63 <= p < 2 ^ 64 /\
  2 <= x <= p - 2 /\
  exists g0,
    g = Some g0 /\ 2 <= g0 < p /\
    g0 ^ 2 mod p <> 1 /\ g0 ^ ((p - 1) / 2) mod p <> 1 /\
    y = g0 ^ x mod p /\ 0 <= y < p.
Proof.
  intro H. apply gen_key_ret_inv in H.
  destruct H as (Hp & Hx & g0 & -> & Hgen & Hy).
  split; [lia |]. split; [assumption |].
  apply find_generator_some_inv in Hgen.
  destruct Hgen as (Hg & [H2 Hq] & _).
  apply quick_pow_ret_inv in Hy; [| lia]. destruct Hy as [_ ->].
  exists g0. repeat split; try assumption; try lia;
    apply Z.mod_pos_bound; lia.
Qed.

(** X18.  Key generation, signing and verification fit together: for a
    key [(p, g, y, x)] returned by [gen_key] with [g^(p-1) mod p = 1]
    (Fermat: so for every prime [p]), each signature that [signmsg]
    returns for a message under [(p, g, x)] is accepted by [verify]
    for that message under [(p, g, y)]. *)
Theorem gen_key_signature_verifies
  (src : nat -> Z) (fuel : nat) c p g y x c'
  (src2 : nat -> Z) (depth fuel2 : nat) (m : string) c2 r s c3 :
  ElGamal.gen_key src fuel c = Ret ((p, Some g, y, x), c') ->
  g ^ (p - 1) mod p = 1 ->
  ElGamal.signmsg src2 depth fuel2 m p g x c2 = Ret ((r, s), c3) ->
  ElGamal.verify m r s p g y = Ret true.
Proof.
  intros Hkey Hone Hsign.
  apply gen_key_ret_inv in Hkey.
  destruct Hkey as (Hp & Hx & g0 & Hg0 & _ & Hy).
  assert (g0 = g) by congruence. subst g0.
  apply quick_pow_ret_inv in Hy; [| lia]. destruct Hy as [_ ->].
  apply signmsg_ret in Hsign.
  destruct Hsign as (k & k_inv & yy & Hk & Hegcd & -> & ->).
  apply extended_gcd_bezout in Hegcd.
  pose proof (sha256_int_nonneg m) as HH.
  rewrite verify_spec;
    [| lia | apply Z.mod_pos_bound; lia | apply Z.mod_pos_bound; lia].
  rewrite signature_equation_cycle with (y := yy) by (assumption || lia).
  now rewrite Z.eqb_refl.
Qed.

(** Powers of a primitive root agree exactly when the exponents agree
    modulo [p - 1]. *)
Lemma generator_pow_eq_iff (p g a b : Z) :
  Z.prime p -> g mod p <> 0 ->
  (forall e, 0 < e < p - 1 -> g ^ e mod p <> 1) ->
  0 <= a -> 0 <= b ->
  (g ^ a mod p = g ^ b mod p <-> a mod (p - 1) = b mod (p - 1)).
Proof.
  intros Hp Hg Hord Ha Hb.
  pose proof (Z.prime_ge_2 p Hp) as Hp2.
  assert (Hone : g ^ (p - 1) mod p = 1) by now apply Z.fermat_nz.
  split.
  - intro Heq.
    rewrite (pow_cycle_reduce p g a), (pow_cycle_reduce p g b) in Heq
      by (assumption || lia).
    destruct (Z.eq_dec p 2) as [-> | Hne].
    + change (2 - 1) with 1. now rewrite !Z.mod_1_r.
    + pose proof (Z.mod_pos_bound a (p - 1) ltac:(lia)) as Hra.
      pose proof (Z.mod_pos_bound b (p - 1) ltac:(lia)) as Hrb.
      destruct (Z.lt_total (a mod (p - 1)) (b mod (p - 1))) as [Hlt | [Heq' | Hgt]].
      * exfalso.
        apply (generator_powers_distinct p g Hp Hg Hord
                 (a mod (p - 1)) (b mod (p - 1))); [lia | lia | assumption].
      * assumption.
      * exfalso.
        apply (generator_powers_distinct p g Hp Hg Hord
                 (b mod (p - 1)) (a mod (p - 1))); [lia | lia | congruence].
  - intro Heq. apply pow_cycle_cong; (assumption || lia).
Qed.

(** X19.  A signature is bound to the digest only modulo [p - 1]: for a
    safe prime [p] with the generator of [find_generator] and a public
    key [y] computed by [quick_pow(g, x, p)], [verify] accepts a
    signature of [m] for another message [m'] exactly when the two
    SHA-256 digests are congruent modulo [p - 1]. *)
Theorem verify_other_message
  (src : nat -> Z) (depth fuel : nat) (m m' : string) (p g x y : Z) c r s c' :
  Z.prime p -> Z.prime ((p - 1) / 2) ->
  ElGamal.find_generator p = Ret (Some g) ->
  quick_pow g x p = Ret y ->
  ElGamal.signmsg src depth fuel m p g x c = Ret ((r, s), c') ->
  ElGamal.verify m' r s p g y
  = Ret (Sha256.sha256_int m mod (p - 1) =? Sha256.sha256_int m' mod (p - 1)).
Proof.
  intros Hp Hq Hgen Hy Hsign.
  pose proof (Z.prime_ge_2 p Hp) as Hp2.
  apply find_generator_some_inv in Hgen.
  destruct Hgen as (Hrange & [H2 Hgq] & _).
  assert (Hg : g mod p <> 0) by (rewrite Z.mod_small by lia; lia).
  assert (Hord : forall e, 0 < e < p - 1 -> g ^ e mod p <> 1).
  { intros e He. now apply generator_full_order. }
  assert (Hone : g ^ (p - 1) mod p = 1) by now apply Z.fermat_nz.
  apply quick_pow_ret_inv in Hy; [| lia]. destruct Hy as [Hx ->].
  apply signmsg_ret in Hsign.
  destruct Hsign as (k & k_inv & yy & Hk & Hegcd & -> & ->).
  apply extended_gcd_bezout in Hegcd.
  pose proof (sha256_int_nonneg m) as HH.
  pose proof (sha256_int_nonneg m') as HH'.
  assert (Hp3 : p <> 2).
  { intros ->. vm_compute in Hq. destruct Hq as [Hq1 _]. inversion Hq1. }
  rewrite verify_spec;
    [| lia | apply Z.mod_pos_bound; lia | apply Z.mod_pos_bound; lia].
  rewrite signature_equation_cycle with (y := yy) by (assumption || lia).
  f_equal.
  pose proof (generator_pow_eq_iff p g (Sha256.sha256_int m)
                (Sha256.sha256_int m') Hp Hg Hord HH HH') as Hiff.
  destruct (Z.eqb_spec (g ^ Sha256.sha256_int m mod p)
                       (g ^ Sha256.sha256_int m' mod p)) as [He | Hne];
    destruct (Z.eqb_spec (Sha256.sha256_int m mod (p - 1))
                         (Sha256.sha256_int m' mod (p - 1))) as [He' | Hne'];
    try reflexivity; tauto.
Qed.

(** X20.  [verify] does not check the range of [r]: for a prime [p] and
    a public key not divisible by [p], shifting [r] by any multiple of
    [p * (p - 1)] leaves the verdict unchanged, so an accepted signature
    has accepted variants with [r >= p]. *)
Theorem verify_ignores_range_of_r (m : string) (r s p g y t : Z) :
  Z.prime p -> y mod p <> 0 -> 0 <= r -> 0 <= s -> 0 <= t ->
  ElGamal.verify m (r + p * (p - 1) * t) s p g y = ElGamal.verify m r s p g y.
Proof.
  intros Hp Hy Hr Hs Ht.
  pose proof (Z.prime_ge_2 p Hp) as Hp2.
  rewrite !verify_spec by nia.
  do 2 f_equal.
  rewrite (Z.mul_mod (y ^ (r + p * (p - 1) * t))), (Z.mul_mod (y ^ r)) by lia.
  do 2 f_equal.
  - apply pow_exponent_cong; try assumption; [nia |].
    replace (r + p * (p - 1) * t) with (r + (p * t) * (p - 1)) by ring.
    apply Z.mod_add. lia.
  - rewrite <- (Z.mod_pow_l (r + p * (p - 1) * t)), <- (Z.mod_pow_l r).
    do 2 f_equal.
    replace (r + p * (p - 1) * t) with (r + ((p - 1) * t) * p) by ring.
    apply Z.mod_add. lia.
Qed.

(** ** The draw of [k] *)

Lemma pick_k_skips (src : nat -> Z) (depth : nat) (p : Z) (j : nat) :
  4 <= p -> (enough_frames (p - 1) <= depth)%nat ->
  forall (n c : nat),
    (j < n)%nat ->
    (forall i, (i < j)%nat ->
               Z.gcd (2 + src (c + i)%nat mod (p - 3)) (p - 1) <> 1) ->
    Z.gcd (2 + src (c + j)%nat mod (p - 3)) (p - 1) = 1 ->
    exists k_inv y,
      extended_gcd depth (2 + src (c + j)%nat mod (p - 3)) (p - 1)
      = Ret (1, k_inv, y) /\
      ElGamal.pick_k src depth n p c
      = Ret ((2 + src (c + j)%nat mod (p - 3), k_inv), S (c + j)).
Proof.
  intros Hp Hdepth. induction j as [| j IH]; intros n c Hn Hskip Hhit.
  - destruct n as [| n]; [lia |].
    cbn [ElGamal.pick_k]. unfold rbind at 1.
    rewrite randint_ret by lia.
    replace (p - 2 - 2 + 1) with (p - 3) by lia.
    rewrite Nat.add_0_r in *.
    pose proof (Z.mod_pos_bound (src c) (p - 3) ltac:(lia)) as Hb.
    destruct (extended_gcd_returns depth (2 + src c mod (p - 3)) (p - 1) Hdepth)
      as [[[g0 k_inv] y] Heq].
    pose proof (extended_gcd_is_gcd depth (2 + src c mod (p - 3)) (p - 1)
                  g0 k_inv y ltac:(lia) ltac:(lia) Heq) as Hg.
    rewrite Hhit in Hg. subst g0.
    exists k_inv, y. split; [assumption |].
    unfold rbind, lift. rewrite Heq. reflexivity.
  - destruct n as [| n]; [lia |].
    cbn [ElGamal.pick_k]. unfold rbind at 1.
    rewrite randint_ret by lia.
    replace (p - 2 - 2 + 1) with (p - 3) by lia.
    pose proof (Z.mod_pos_bound (src c) (p - 3) ltac:(lia)) as Hb.
    destruct (extended_gcd_returns depth (2 + src c mod (p - 3)) (p - 1) Hdepth)
      as [[[g0 k_inv0] y0] Heq].
    pose proof (extended_gcd_is_gcd depth (2 + src c mod (p - 3)) (p - 1)
                  g0 k_inv0 y0 ltac:(lia) ltac:(lia) Heq) as Hg.
    pose proof (Hskip O ltac:(lia)) as H0. rewrite Nat.add_0_r in H0.
    destruct (IH n (S c) ltac:(lia)) as (k_inv & y & Hegcd & Hpick).
    + intros i Hi. specialize (Hskip (S i) ltac:(lia)).
      now replace (S c + i)%nat with (c + S i)%nat by lia.
    + now replace (S c + j)%nat with (c + S j)%nat by lia.
    + replace (S c + j)%nat with (c + S j)%nat in * by lia.
      exists k_inv, y. split; [assumption |].
      unfold rbind at 1. unfold lift. rewrite Heq.
      destruct (Z.eqb_spec g0 1); [congruence | assumption].
Qed.

(** X21.  [signmsg] keeps drawing [k] from [[2, p - 2]] until one is
    coprime to [p - 1]: when the first [j] draws are not coprime and the
    next one is, it returns [r = g^k mod p] for that [k] with an [s] of
    [[0, p - 1)], having made [j + 1] draws; this with enough frames
    left for [extended_gcd], two for every bit of [p - 1], and three.
    For [p < 4] the range of the draw is empty and [signmsg] raises
    [ValueError]. *)
Theorem signmsg_first_coprime_draw
  (src : nat -> Z) (depth fuel : nat) (m : string) (p g x : Z) (c j : nat) :
  (4 <= p -> (enough_frames (p - 1) <= depth)%nat -> (j < fuel)%nat ->
   (forall i, (i < j)%nat ->
              Z.gcd (2 + src (c + i)%nat mod (p - 3)) (p - 1) <> 1) ->
   Z.gcd (2 + src (c + j)%nat mod (p - 3)) (p - 1) = 1 ->
   exists s,
     ElGamal.signmsg src depth fuel m p g x c
     = Ret ((g ^ (2 + src (c + j)%nat mod (p - 3)) mod p, s), S (c + j)) /\
     0 <= s < p - 1) /\
  (p < 4 -> (0 < fuel)%nat ->
   ElGamal.signmsg src depth fuel m p g x c = Raise ValueError).
Proof.
  split.
  - intros Hp Hdepth Hj Hskip Hhit.
    destruct (pick_k_skips src depth p j Hp Hdepth fuel c Hj Hskip Hhit)
      as (k_inv & y & _ & Hpick).
    pose proof (Z.mod_pos_bound (src (c + j)%nat) (p - 3) ltac:(lia)) as Hb.
    unfold ElGamal.signmsg, rbind. rewrite Hpick. cbv zeta.
    rewrite quick_pow_pos by lia. unfold lift at 1.
    rewrite py_mod_nz by lia. unfold lift, rret.
    eexists. split; [reflexivity |]. apply Z.mod_pos_bound. lia.
  - intros Hp Hfuel. destruct fuel as [| fuel]; [lia |].
    unfold ElGamal.signmsg, rbind. cbn [ElGamal.pick_k]. unfold rbind, randint.
    destruct (Z.ltb_spec (p - 2) 2); [reflexivity | lia].
Qed.

(** ** The shared primitives outside their intended domain *)

(** X22.  [extended_gcd] takes all integers: it returns or, out of
    frames, raises [RecursionError], and it returns when two frames for
    every bit of [b], and three, are left.  What it returns satisfies
    the Bezout identity [a*x + b*y = g]; [g] is the gcd up to sign only:
    positive when [b > 0], negative when [b < 0], and [a] itself (of
    either sign) when [b = 0]. *)
Theorem extended_gcd_any_sign (depth : nat) (a b : Z) :
  ((exists t, extended_gcd depth a b = Ret t) \/
   extended_gcd depth a b = Raise RecursionError) /\
  ((enough_frames b <= depth)%nat ->
   exists t, extended_gcd depth a b = Ret t) /\
  (forall g x y,
      extended_gcd depth a b = Ret (g, x, y) ->
      a * x + b * y = g /\
      Z.abs g = Z.gcd a b /\
      (0 < b -> g = Z.gcd a b) /\
      (b < 0 -> g = - Z.gcd a b /\ g < 0) /\
      (b = 0 -> g = a /\ x = 1 /\ y = 0)).
Proof.
  split; [apply extended_gcd_outcome |].
  split; [apply extended_gcd_returns |].
  intros g x y Heq.
  pose proof (extended_gcd_sign depth a b g x y Heq) as (H0 & Hpos & Hneg & Habs).
  split; [now apply (extended_gcd_bezout depth) |]. split; [assumption |].
  split; [| split].
  - intro Hb. specialize (Hpos Hb). lia.
  - intro Hb. specialize (Hneg Hb). lia.
  - intros ->. now apply (extended_gcd_ret_zero depth).
Qed.

(** X23.  [mod_inverse] never returns for a modulus [m <= 0].  A
    negative modulus gives [ValueError], whatever [e] is, when enough
    frames are left for [extended_gcd], and [ValueError] or
    [RecursionError] otherwise; the modulus 0 gives [ZeroDivisionError]
    for [e = 1] and [ValueError] for every other [e]. *)
Theorem mod_inverse_bad_modulus (depth : nat) (e m : Z) :
  (m < 0 ->
   (forall d, mod_inverse depth e m <> Ret d) /\
   (mod_inverse depth e m = Raise ValueError \/
    mod_inverse depth e m = Raise RecursionError) /\
   ((enough_frames m <= depth)%nat ->
    mod_inverse depth e m = Raise ValueError)) /\
  (m = 0 -> (0 < depth)%nat ->
   mod_inverse depth e m = if e =? 1 then Raise ZeroDivisionError
                           else Raise ValueError).
Proof.
  split.
  - intro Hm.
    assert (Hret : forall t, extended_gcd depth e m = Ret t ->
                             mod_inverse depth e m = Raise ValueError).
    { intros [[g x] y] Heq.
      rewrite (mod_inverse_of_triple _ _ _ _ _ _ Heq).
      pose proof (extended_gcd_sign depth e m g x y Heq) as (_ & _ & Hneg & _).
      specialize (Hneg Hm).
      destruct (Z.eqb_spec g 1); [lia | reflexivity]. }
    assert (Hcases : mod_inverse depth e m = Raise ValueError \/
                     mod_inverse depth e m = Raise RecursionError).
    { destruct (extended_gcd_outcome depth e m) as [[t Ht] | Hno].
      - left. now apply (Hret t).
      - right. now apply mod_inverse_no_frames. }
    split; [| split].
    + intros d Hd. destruct Hcases as [H | H]; congruence.
    + exact Hcases.
    + intro Hdepth.
      destruct (extended_gcd_returns depth e m Hdepth) as [t Ht].
      now apply (Hret t).
  - intros -> Hdepth. destruct depth as [| depth]; [lia |].
    unfold mod_inverse. rewrite extended_gcd_step. cbn.
    destruct (Z.eqb_spec e 1); reflexivity.
Qed.

(** A step of the loop on the modulus 0. *)
Lemma quick_pow_loop_zero_modulus (fuel : nat) (ans m e : Z) :
  e <> 0 -> quick_pow_loop (S fuel) ans m e 0 = Raise ZeroDivisionError.
Proof.
  intro He. cbn [quick_pow_loop].
  destruct (Z.eqb_spec e 0); [contradiction |].
  destruct (Z.land e 1 =? 0); reflexivity.
Qed.

(** X24.  [quick_pow] outside [e >= 0], [n >= 1]: on a negative exponent
    and a modulus other than 0 the loop never ends, however many
    iterations it is given; on the modulus 0 and an exponent other than
    0 its first iteration raises [ZeroDivisionError]; on a negative
    modulus and [e > 0] it returns [m^e mod n] with the sign of the
    modulus, in [(n, 0]]. *)
Theorem quick_pow_outside_domain (m e n : Z) :
  (e < 0 -> n <> 0 ->
   forall fuel ans, quick_pow_loop fuel ans m e n = OutOfFuel) /\
  (e <> 0 -> n = 0 ->
   forall fuel ans, quick_pow_loop (S fuel) ans m e n = Raise ZeroDivisionError) /\
  (0 < e -> n < 0 ->
   quick_pow m e n = Ret (m ^ e mod n) /\ n < m ^ e mod n <= 0).
Proof.
  split; [| split].
  - intros He Hn fuel ans. now apply quick_pow_loop_negative.
  - intros He -> fuel ans. now apply quick_pow_loop_zero_modulus.
  - intros He Hn. split; [apply quick_pow_pos; lia |].
    apply Z.mod_neg_bound. assumption.
Qed.

(** ** Runs of the primality oracle *)

Lemma is_prime_accepts_prime_witness :
  is_prime (fun _ => 0) 7 97 5 0%nat = Ret (true, 5%nat).
Proof.
  refine (proj1 (is_prime_accepts_prime (fun _ => 0) 7 97 5 0 _) _).
  - apply prime_by_trial; [reflexivity | vm_compute; reflexivity].
  - vm_compute. discriminate.
Defined.

Lemma is_prime_total_witness :
  exists b c',
    is_prime (fun _ => 0) 10 561 5 0%nat = Ret (b, c') /\
    (0 <= c' <= 0 + Z.to_nat 5)%nat.
Proof.
  refine (is_prime_total (fun _ => 0) 10 561 5 0 _).
  vm_compute. discriminate.
Defined.

Example is_prime_carmichael : is_prime (fun _ => 0) 10 561 5 0%nat = Ret (false, 1%nat).
Proof. vm_compute. reflexivity. Qed.

Lemma is_prime_no_rounds_witness :
  is_prime (fun _ => 0) 4 9 0 0%nat = Ret (true, 0%nat).
Proof.
  refine (is_prime_no_rounds (fun _ => 0) 4 9 0 0 _ _ _ _);
    [lia | reflexivity | lia | vm_compute; discriminate].
Defined.

Lemma odd_part_factor_witness :
  exists r s,
    odd_part 7 96 = Ret r /\ 0 < r /\ r mod 2 = 1 /\ 0 <= s /\ 96 = r * 2 ^ s.
Proof.
  refine (odd_part_factor 7 96 _ _); [lia | vm_compute; discriminate].
Defined.

(** ** Runs of the RSA code and of the text helpers *)

(** From 24 the probe passes over 24 to 28 and stops at 29. *)
Lemma probe_first_accepted_witness :
  24 <= 29 /\
  (exists c1, is_prime (fun _ => 0) 10 29 5 c1 = Ret (true, 7%nat)) /\
  (forall m, 24 <= m < 29 -> ~ Z.prime m).
Proof.
  refine (probe_first_accepted (fun _ => 0) 10 10 24 0 29 7 _).
  vm_compute. reflexivity.
Defined.

Lemma key_gen_from_primes_witness :
  (exists d,
      key_gen_with 36 61 53
      = Ret (61, 53, 61 * 53, (61 - 1) * (53 - 1), 65537, d) /\
      0 <= d < (61 - 1) * (53 - 1) /\
      (65537 * d) mod ((61 - 1) * (53 - 1)) = 1) /\
  key_gen_with 36 65538 3 = Raise ValueError.
Proof.
  split.
  - refine (proj1 (proj2 (key_gen_from_primes 36 61 53) _ _) _);
      [lia | lia | reflexivity].
  - refine (proj2 (proj2 (key_gen_from_primes 36 65538 3) _ _) _);
      [lia | lia | discriminate].
Defined.

Lemma rsa_round_trip_wraps_witness :
  exists ciphertext_list,
    RSA.rsa_encrypt [3298; -1] 17 3233 = Ret ciphertext_list /\
    RSA.rsa_decrypt ciphertext_list 2753 3233
    = Ret (map (fun m => m mod 3233) [3298; -1]).
Proof.
  refine (rsa_round_trip_wraps 61 53 3233 17 2753 [3298; -1] _ _ _ _ _ _ _).
  - apply prime_by_trial; [reflexivity | vm_compute; reflexivity].
  - apply prime_by_trial; [reflexivity | vm_compute; reflexivity].
  - lia.
  - reflexivity.
  - lia.
  - lia.
  - reflexivity.
Defined.

Example rsa_wrapped_plaintexts :
  RSA.rsa_decrypt [2790; 3232] 2753 3233 = Ret [65; 3232].
Proof. vm_compute. reflexivity. Qed.

Lemma rsa_encrypt_elementwise_witness :
  (exists ciphertext_list,
      RSA.rsa_encrypt [65; 2] 17 3233 = Ret ciphertext_list /\
      List.length ciphertext_list = List.length [65; 2] /\
      Forall (fun c => 0 <= c < 3233) ciphertext_list /\
      (forall i, nth i ciphertext_list 0
                 = if (i <? List.length [65; 2])%nat
                   then nth i [65; 2] 0 ^ 17 mod 3233 else 0)) /\
  RSA.rsa_encrypt [65; 2] 17 0 = Raise ZeroDivisionError.
Proof.
  split.
  - refine (proj1 (rsa_encrypt_elementwise 17 3233 [65; 2] _) _); lia.
  - refine (proj2 (rsa_encrypt_elementwise 17 0 [65; 2] _) _ _ _);
      [lia | reflexivity | lia | discriminate].
Defined.

Lemma rsa_encrypt_multiplicative_witness :
  exists c1 c2,
    RSA.rsa_encrypt [65; 2] 17 3233 = Ret [c1; c2] /\
    RSA.rsa_encrypt [65 * 2] 17 3233 = Ret [(c1 * c2) mod 3233].
Proof.
  refine (rsa_encrypt_multiplicative 17 3233 65 2 _ _); lia.
Defined.

Example file2int_hi :
  file2int [72; 105; 33] = inl ([4073; 100], 3) /\
  int2string [4073; 100] = [72; 105; 33; 32].
Proof. split; vm_compute; reflexivity. Qed.

(** A line feed (10) and a code point above 126 are passed over. *)
Lemma text_round_trip_witness :
  (if negb (3 mod 2 =? 0)
   then removelast (int2string [4073; 100])
   else int2string [4073; 100])
  = filter (fun char => (32 <=? char) && (char <=? 126)) [72; 10; 105; 8364; 33].
Proof.
  refine (text_round_trip [72; 10; 105; 8364; 33] [4073; 100] 3 _).
  vm_compute. reflexivity.
Defined.

Lemma text_through_rsa_witness :
  exists plaintext_list original_len ciphertext_list,
    file2int [72; 105; 33] = inl (plaintext_list, original_len) /\
    RSA.rsa_encrypt plaintext_list 7 10403 = Ret ciphertext_list /\
    (exists decrypted,
        RSA.rsa_decrypt ciphertext_list 8743 10403 = Ret decrypted /\
        (if negb (original_len mod 2 =? 0)
         then removelast (int2string decrypted)
         else int2string decrypted)
        = filter (fun char => (32 <=? char) && (char <=? 126)) [72; 105; 33]).
Proof.
  refine (text_through_rsa 101 103 10403 7 8743 [72; 105; 33] _ _ _ _ _ _ _ _).
  - apply prime_by_trial; [reflexivity | vm_compute; reflexivity].
  - apply prime_by_trial; [reflexivity | vm_compute; reflexivity].
  - lia.
  - reflexivity.
  - lia.
  - lia.
  - reflexivity.
  - lia.
Defined.

Lemma int_list_to_string_total_witness :
  int_list_to_string [72; 8364] = Ret [72; 8364] /\
  int_list_to_string [72; -1; 105] = Raise ValueError /\
  int_list_to_string [72; 1114112; 105] = Raise ValueError /\
  int_list_to_string [72; 2147483648] = Raise OverflowError.
Proof.
  split; [| split; [| split]].
  - refine (proj1 (int_list_to_string_total [72; 8364]) _).
    repeat constructor; lia.
  - refine (proj2 (int_list_to_string_total [72; -1; 105])
              [72] (-1) [105] eq_refl _ _);
      [repeat constructor; lia | lia].
  - refine (proj2 (int_list_to_string_total [72; 1114112; 105])
              [72] 1114112 [105] eq_refl _ _);
      [repeat constructor; lia | lia].
  - refine (proj2 (int_list_to_string_total [72; 2147483648])
              [72] 2147483648 [] eq_refl _ _);
      [repeat constructor; lia | lia].
Defined.

Lemma chars_through_rsa_witness :
  exists ciphertext_list decrypted,
    RSA.rsa_encrypt (read_file_to_int_list [72; 228; 8364]) 11 1115111
    = Ret ciphertext_list /\
    RSA.rsa_decrypt ciphertext_list 607091 1115111 = Ret decrypted /\
    int_list_to_string decrypted = Ret [72; 228; 8364].
Proof.
  refine (chars_through_rsa 1051 1061 1115111 11 607091 [72; 228; 8364]
            _ _ _ _ _ _ _ _ _).
  - apply prime_by_trial; [reflexivity | vm_compute; reflexivity].
  - apply prime_by_trial; [reflexivity | vm_compute; reflexivity].
  - lia.
  - reflexivity.
  - lia.
  - lia.
  - reflexivity.
  - lia.
  - repeat constructor; lia.
Defined.

(** ** Runs of the ElGamal code and of the shared primitives *)

(** No candidate below 3; on a modulus that is not prime the answer
    need not even be invertible. *)
Example find_generator_small_moduli :
  ElGamal.find_generator 0 = Ret None /\
  ElGamal.find_generator 3 = Ret None /\
  ElGamal.find_generator 8 = Ret (Some 2) /\
  ElGamal.find_generator 23 = Ret (Some 5).
Proof. vm_compute. repeat split; reflexivity. Qed.

Lemma find_generator_answer_witness :
  (exists g,
      ElGamal.find_generator 23 = Ret (Some g) /\
      2 <= g < 23 /\
      (g ^ 2 mod 23 <> 1 /\ g ^ ((23 - 1) / 2) mod 23 <> 1) /\
      (forall i, 2 <= i < g ->
                 ~ (i ^ 2 mod 23 <> 1 /\ i ^ ((23 - 1) / 2) mod 23 <> 1))) \/
  (ElGamal.find_generator 23 = Ret None /\
   (forall i, 2 <= i < 23 ->
              ~ (i ^ 2 mod 23 <> 1 /\ i ^ ((23 - 1) / 2) mod 23 <> 1))).
Proof. exact (find_generator_answer 23). Defined.

Lemma find_generator_primitive_root_witness :
  (forall e, 0 < e < 23 - 1 -> 5 ^ e mod 23 <> 1) /\
  (forall i j, 0 <= i < j -> j < 23 - 1 -> 5 ^ i mod 23 <> 5 ^ j mod 23).
Proof.
  refine (find_generator_primitive_root 23 5 _ _ _).
  - apply prime_by_trial; [reflexivity | vm_compute; reflexivity].
  - change ((23 - 1) / 2) with 11.
    apply prime_by_trial; [reflexivity | vm_compute; reflexivity].
  - vm_compute. reflexivity.
Defined.

(** The scan on the safe prime [2^63 + 2679]: 2, 3 and 4 fail a test,
    5 passes. *)
Example find_generator_run :
  ElGamal.find_generator 9223372036854778487 = Ret (Some 5).
Proof.
  unfold ElGamal.find_generator. cbv zeta.
  replace (Z.to_nat (9223372036854778487 - 2))
    with (S (S (S (S (Z.to_nat (9223372036854778487 - 6)))))) by lia.
  rewrite (find_generator_from_step _ 2 _ _ false) by (vm_compute; reflexivity).
  rewrite (find_generator_from_step _ (2 + 1) _ _ false) by (vm_compute; reflexivity).
  rewrite (find_generator_from_step _ (2 + 1 + 1) _ _ false) by (vm_compute; reflexivity).
  rewrite (find_generator_from_step _ (2 + 1 + 1 + 1) _ _ true) by (vm_compute; reflexivity).
  reflexivity.
Qed.

(** A whole run of [gen_key]: the first draw lands on that prime, ten
    draws serve the two primality tests, the twelfth gives [x = 2]. *)
Example gen_key_run :
  ElGamal.gen_key (fun c => match c with O => 2679 | _ => 0 end) 64 0%nat
  = Ret ((9223372036854778487, Some 5, 25, 2), 12%nat).
Proof.
  assert (Hprime :
            ElGamal.gen_large_prime (fun c => match c with O => 2679 | _ => 0 end)
              64 0%nat = Ret (9223372036854778487, 11%nat))
    by (vm_compute; reflexivity).
  unfold ElGamal.gen_key, rbind at 1. rewrite Hprime.
  unfold rbind at 1. rewrite find_generator_run.
  unfold lift at 1. vm_compute. reflexivity.
Qed.

Lemma gen_key_well_formed_witness :
  2 ^ 63 <= 9223372036854778487 < 2 ^ 64 /\
  2 <= 2 <= 9223372036854778487 - 2 /\
  exists g0,
    Some 5 = Some g0 /\ 2 <= g0 < 9223372036854778487 /\
    g0 ^ 2 mod 9223372036854778487 <> 1 /\
    g0 ^ ((9223372036854778487 - 1) / 2) mod 9223372036854778487 <> 1 /\
    25 = g0 ^ 2 mod 9223372036854778487 /\ 0 <= 25 < 9223372036854778487.
Proof.
  exact (gen_key_well_formed (fun c => match c with O => 2679 | _ => 0 end)
           64 0 9223372036854778487 (Some 5) 25 2 12 gen_key_run).
Defined.

(** A signature of the message of the script under the key above,
    with [k = 3]. *)
Example signmsg_run :
  ElGamal.signmsg (fun _ => 1) 100 1 "220110430"%string
    9223372036854778487 5 2 0%nat
  = Ret ((125, 5797298650007606694), 1%nat).
Proof. vm_compute. reflexivity. Qed.

Lemma gen_key_signature_verifies_witness :
  ElGamal.verify "220110430"%string 125 5797298650007606694
    9223372036854778487 5 25 = Ret true.
Proof.
  refine (gen_key_signature_verifies
            (fun c => match c with O => 2679 | _ => 0 end) 64 0
            9223372036854778487 5 25 2 12
            (fun _ => 1) 100 1 "220110430"%string 0 125 5797298650007606694 1
            gen_key_run _ signmsg_run).
  pose proof (quick_pow_pos 5 (9223372036854778487 - 1) 9223372036854778487
                ltac:(lia) ltac:(lia)) as Hpow.
  assert (Hrun : quick_pow 5 (9223372036854778487 - 1) 9223372036854778487
                 = Ret 1) by (vm_compute; reflexivity).
  congruence.
Defined.

Lemma verify_other_message_witness :
  ElGamal.verify "test19"%string 10 6 23 5 8
  = Ret (Sha256.sha256_int "test"%string mod (23 - 1)
         =? Sha256.sha256_int "test19"%string mod (23 - 1)).
Proof.
  refine (verify_other_message (fun _ => 1) 100 1 "test"%string "test19"%string
            23 5 6 8 0 10 6 1 _ _ _ _ _).
  - apply prime_by_trial; [reflexivity | vm_compute; reflexivity].
  - change ((23 - 1) / 2) with 11.
    apply prime_by_trial; [reflexivity | vm_compute; reflexivity].
  - vm_compute. reflexivity.
  - vm_compute. reflexivity.
  - vm_compute. reflexivity.
Defined.

(** With the 5-bit modulus 23 the digests of two messages collide
    modulo 22, and the signature of one is accepted for the other; the
    message of the script with its last digit changed is rejected. *)
Example signature_accepted_for_other_message :
  ElGamal.signmsg (fun _ => 1) 100 1 "test"%string 23 5 6 0%nat = Ret ((10, 6), 1%nat) /\
  ElGamal.verify "test"%string 10 6 23 5 8 = Ret true /\
  ElGamal.verify "test19"%string 10 6 23 5 8 = Ret true /\
  ElGamal.verify "test1"%string 10 6 23 5 8 = Ret false.
Proof.
  split; [vm_compute; reflexivity |].
  split; [vm_compute; reflexivity |].
  split; vm_compute; reflexivity.
Qed.

Lemma verify_ignores_range_of_r_witness :
  ElGamal.verify "test"%string (10 + 23 * (23 - 1) * 1) 6 23 5 8
  = ElGamal.verify "test"%string 10 6 23 5 8.
Proof.
  refine (verify_ignores_range_of_r "test"%string 10 6 23 5 8 1 _ _ _ _ _).
  - apply prime_by_trial; [reflexivity | vm_compute; reflexivity].
  - discriminate.
  - lia.
  - lia.
  - lia.
Defined.

Example verify_accepts_large_r :
  ElGamal.verify "test"%string 516 6 23 5 8 = Ret true /\ 23 <= 516.
Proof. split; [vm_compute; reflexivity | lia]. Qed.

(** The first draw is [k = 2], which shares the factor 2 with [22]; the
    second is [k = 3]. *)
Lemma signmsg_first_coprime_draw_witness :
  (exists s,
      ElGamal.signmsg (fun c => match c with O => 0 | _ => 1 end) 100 2
        "test"%string 23 5 6 0%nat
      = Ret ((5 ^ (2 + (fun c => match c with O => 0 | _ => 1 end) (0 + 1)%nat
                       mod (23 - 3)) mod 23, s), S (0 + 1)) /\
      0 <= s < 23 - 1) /\
  ElGamal.signmsg (fun _ => 1) 100 1 "test"%string 3 5 6 0%nat = Raise ValueError.
Proof.
  split.
  - refine (proj1 (signmsg_first_coprime_draw
                     (fun c => match c with O => 0 | _ => 1 end) 100 2
                     "test"%string 23 5 6 0 1) _ _ _ _ _).
    + lia.
    + vm_compute. lia.
    + lia.
    + intros i Hi. assert (i = O) by lia. subst i. discriminate.
    + reflexivity.
  - refine (proj2 (signmsg_first_coprime_draw (fun _ => 1) 100 1
                     "test"%string 3 5 6 0 0) _ _); lia.
Defined.

(** With too few frames left [signmsg] does not get as far as a
    signature. *)
Example signmsg_out_of_frames :
  ElGamal.signmsg (fun _ => 1) 2 1 "test"%string 23 5 6 0%nat
  = Raise RecursionError.
Proof. vm_compute. reflexivity. Qed.

Example extended_gcd_signs :
  extended_gcd 100 12 (-18) = Ret (-6, 1, 1) /\
  extended_gcd 100 (-12) 18 = Ret (6, 1, 1) /\
  extended_gcd 100 (-5) 0 = Ret (-5, 1, 0) /\
  extended_gcd 2 12 (-18) = Raise RecursionError.
Proof. vm_compute. repeat split; reflexivity. Qed.

Lemma extended_gcd_any_sign_witness :
  exists t, extended_gcd 100 12 (-18) = Ret t.
Proof.
  refine (proj1 (proj2 (extended_gcd_any_sign 100 12 (-18))) _).
  vm_compute. lia.
Defined.

Lemma mod_inverse_bad_modulus_witness :
  mod_inverse 100 3 (-7) = Raise ValueError /\
  mod_inverse 100 1 0 = Raise ZeroDivisionError /\
  mod_inverse 100 3 0 = Raise ValueError.
Proof.
  split; [| split].
  - refine (proj2 (proj2 (proj1 (mod_inverse_bad_modulus 100 3 (-7)) _)) _);
      [lia | vm_compute; lia].
  - refine (proj2 (mod_inverse_bad_modulus 100 1 0) _ _); [reflexivity | lia].
  - refine (proj2 (mod_inverse_bad_modulus 100 3 0) _ _); [reflexivity | lia].
Defined.

Lemma quick_pow_outside_domain_witness :
  (forall fuel ans, quick_pow_loop fuel ans 2 (-1) 5 = OutOfFuel) /\
  (forall fuel ans, quick_pow_loop (S fuel) ans 2 3 0 = Raise ZeroDivisionError) /\
  (quick_pow 2 3 (-5) = Ret (2 ^ 3 mod (-5)) /\ -5 < 2 ^ 3 mod (-5) <= 0).
Proof.
  split; [| split].
  - refine (proj1 (quick_pow_outside_domain 2 (-1) 5) _ _); lia.
  - refine (proj1 (proj2 (quick_pow_outside_domain 2 3 0)) _ _);
      [lia | reflexivity].
  - refine (proj2 (proj2 (quick_pow_outside_domain 2 3 (-5))) _ _); lia.
Defined.
